(** * Backpack placement, occupancy and packing: a shallow embedding

    The class [BackpackSystem] of [services/backpackLogic] together with the
    types of [types.ts] and the catalog of [constants.ts].

    Conventions of the embedding.
    - Sizes (grid rows and columns, shape width and height) are array lengths
      and are modelled in [nat]; coordinates are signed and modelled in [Z].
    - A JavaScript call either completes normally or throws.  The only
      exception these methods can raise is the [TypeError] of reading or
      writing a property of [undefined]; it is modelled by [completion].
    - [Record<string, ItemDefinition>] is a [gmap string ItemDefinition.t]. *)

From Stdlib Require Import ZArith Lia Permutation Sorted.
From stdpp Require Import base option list gmap strings.

(** ** Completions *)

Inductive completion (A : Type) : Type :=
  | Normal (a : A)
  | TypeError.
Arguments Normal {A} a.
Arguments TypeError {A}.

#[global] Instance completion_ret : MRet completion := fun _ a => Normal a.
#[global] Instance completion_bind : MBind completion := fun _ _ f m =>
  match m with
  | Normal a => f a
  | TypeError => TypeError
  end.

(** ** Loop combinators

    [forallM body l] is a [for] loop over [l] whose body may leave the loop
    with a negative verdict ([return false], or [fits = false; break]). *)
Fixpoint forallM {A} (body : A → completion bool) (l : list A) : completion bool :=
  match l with
  | [] => Normal true
  | a :: l' => b ← body a; if b : bool then forallM body l' else Normal false
  end.

(** [foldlM body s l] is a [for] loop over [l] that updates a state. *)
Fixpoint foldlM {A S} (body : S → A → completion S) (s : S) (l : list A) : completion S :=
  match l with
  | [] => Normal s
  | a :: l' => s' ← body s a; foldlM body s' l'
  end.

(** [firstM body l] is a [for] loop over [l] that is left by [break] as soon
    as the body has produced something. *)
Fixpoint firstM {A B} (body : A → completion (option B)) (l : list A) : completion (option B) :=
  match l with
  | [] => Normal None
  | a :: l' =>
      o ← body a;
      match o with
      | Some b => Normal (Some b)
      | None => firstM body l'
      end
  end.

(** The values [0, 1, ..., n] of a loop [for (let i = 0; i <= n; i++)]. *)
Definition upto (n : Z) : list nat := seq 0 (Z.to_nat (n + 1)).

(** [l[i]] for a number [i]: [None] stands for [undefined]. *)
Definition index {A} (l : list A) (i : Z) : option A :=
  if (i <? 0)%Z then None else l !! Z.to_nat i.

(** [row[i] = v] on a JavaScript array: past the end the array grows, the
    holes in between read as [hole]. *)
Definition arraySet {A} (hole : A) (l : list A) (i : nat) (v : A) : list A :=
  if decide (i < length l) then <[i := v]> l
  else l ++ replicate (i - length l) hole ++ [v].

(** ** Data model ([types.ts]) *)

Module ItemDefinition.
Record t : Type := mk {
  id : string;
  name : string;
  color : string;
  shape : list (list Z);
  width : nat;
  height : nat
}.
End ItemDefinition.

Module PlacedItem.
Record t : Type := mk {
  instanceId : string;
  defId : string;
  x : Z;
  y : Z;
  rotation : Z
}.

(** The object literal [{ ...item, x, y }]. *)
Definition withXY (item : t) (x' y' : Z) : t :=
  mk (instanceId item) (defId item) x' y' (rotation item).
End PlacedItem.

Abbreviation Catalog := (gmap string ItemDefinition.t).

(** [def.shape[r][c] === 1].  A missing row makes the second subscript throw;
    a missing entry reads as [undefined], which is not [1]. *)
Definition shapeCell (def : ItemDefinition.t) (r c : nat) : completion bool :=
  match ItemDefinition.shape def !! r with
  | None => TypeError
  | Some row => Normal (bool_decide (row !! c = Some 1%Z))
  end.

(** ** The class [BackpackSystem] *)

Module BackpackSystem.
Record t : Type := mk {
  rows : nat;
  cols : nat;
  items : list PlacedItem.t
}.

(** [Array.from({ length: rows }, () => Array(cols).fill(v))] *)
Definition newGrid {A} (this : t) (v : A) : list (list A) :=
  replicate (rows this) (replicate (cols this) v).

(** The method builds the grid and returns it as it is; it never reads
    [this.items]. *)
Definition getOccupancyGrid (this : t) (ignoreInstanceId : option string)
  : list (list (option string)) :=
  newGrid this None.

Definition outOfBounds (this : t) (itemDef : ItemDefinition.t) (x y : Z) : bool :=
  (x <? 0)%Z || (y <? 0)%Z
  || (x + Z.of_nat (ItemDefinition.width itemDef) >? Z.of_nat (cols this))%Z
  || (y + Z.of_nat (ItemDefinition.height itemDef) >? Z.of_nat (rows this))%Z.

(** [grid[gridY][gridX] !== null] negated: the cell is there and is [null]. *)
Definition cellIsNull (grid : list (list (option string))) (gridY gridX : Z)
  : completion bool :=
  match index grid gridY with
  | None => TypeError
  | Some row => Normal (bool_decide (index row gridX = Some None))
  end.

Definition canPlaceItem (this : t) (itemDef : ItemDefinition.t) (x y : Z)
    (ignoreInstanceId : option string) : completion bool :=
  if outOfBounds this itemDef x y then Normal false
  else
    let grid := getOccupancyGrid this ignoreInstanceId in
    forallM (λ r,
      forallM (λ c,
        occ ← shapeCell itemDef r c;
        if occ : bool then
          let gridX := (x + Z.of_nat c)%Z in
          let gridY := (y + Z.of_nat r)%Z in
          cellIsNull grid gridY gridX
        else Normal true)
      (seq 0 (ItemDefinition.width itemDef)))
    (seq 0 (ItemDefinition.height itemDef)).

(** [gy >= 0 && gy < this.rows && gx >= 0 && gx < this.cols] *)
Definition inGrid (this : t) (gx gy : Z) : bool :=
  (0 <=? gy)%Z && (gy <? Z.of_nat (rows this))%Z
  && (0 <=? gx)%Z && (gx <? Z.of_nat (cols this))%Z.

(** [grid[gy][gx] = v], used under the guard [inGrid] only. *)
Definition setCell {A} (grid : list (list A)) (gy gx : nat) (v : A) : list (list A) :=
  alter (λ row, <[gx := v]> row) gy grid.

(** The body of the loops over one item's shape in
    [getOccupancyGridWithDefs]. *)
Definition stampCell (this : t) (item : PlacedItem.t) (def : ItemDefinition.t)
    (grid : list (list (option string))) (r c : nat)
  : completion (list (list (option string))) :=
  occ ← shapeCell def r c;
  if occ : bool then
    let gx := (PlacedItem.x item + Z.of_nat c)%Z in
    let gy := (PlacedItem.y item + Z.of_nat r)%Z in
    if inGrid this gx gy
    then Normal (setCell grid (Z.to_nat gy) (Z.to_nat gx)
                   (Some (PlacedItem.instanceId item)))
    else Normal grid
  else Normal grid.

Definition stamp (this : t) (item : PlacedItem.t) (def : ItemDefinition.t)
    (grid : list (list (option string))) : completion (list (list (option string))) :=
  foldlM (λ grid r,
    foldlM (λ grid c, stampCell this item def grid r c)
      grid (seq 0 (ItemDefinition.width def)))
    grid (seq 0 (ItemDefinition.height def)).

Definition getOccupancyGridWithDefs (this : t) (defs : Catalog)
    (ignoreInstanceId : option string) : completion (list (list (option string))) :=
  foldlM (λ grid item,
    if bool_decide (Some (PlacedItem.instanceId item) = ignoreInstanceId)
    then Normal grid
    else
      match defs !! PlacedItem.defId item with
      | None => Normal grid
      | Some def => stamp this item def grid
      end)
  (newGrid this None) (items this).

(** *** [organize] *)

(** The comparator handed to [sort]: [areaB - areaA], where reading
    [width] of a missing catalog entry throws. *)
Definition compareArea (defs : Catalog) (a b : PlacedItem.t) : completion Z :=
  match defs !! PlacedItem.defId a, defs !! PlacedItem.defId b with
  | Some defA, Some defB =>
      let areaA := Z.of_nat (ItemDefinition.width defA * ItemDefinition.height defA) in
      let areaB := Z.of_nat (ItemDefinition.width defB * ItemDefinition.height defB) in
      Normal (areaB - areaA)%Z
  | _, _ => TypeError
  end.

(** [Array.prototype.sort] is a stable sort (ECMAScript 2019): with a
    negative or zero verdict [a] stays in front of [b].  The engine's choice
    of algorithm is not observable through a consistent comparator, so the
    sort is written as the stable insertion sort; a throwing comparator
    aborts it. *)
Fixpoint insertBy {A} (cmp : A → A → completion Z) (a : A) (l : list A)
  : completion (list A) :=
  match l with
  | [] => Normal [a]
  | b :: l' =>
      v ← cmp a b;
      if (v <=? 0)%Z then Normal (a :: b :: l')
      else l'' ← insertBy cmp a l'; Normal (b :: l'')
  end.

Fixpoint sortBy {A} (cmp : A → A → completion Z) (l : list A) : completion (list A) :=
  match l with
  | [] => Normal []
  | a :: l' => s ← sortBy cmp l'; insertBy cmp a s
  end.

(** [tempGrid[i][j]] read for its truth value: a missing row throws, a
    missing entry is [undefined], hence falsy. *)
Definition tempCell (tempGrid : list (list bool)) (i j : nat) : completion bool :=
  match tempGrid !! i with
  | None => TypeError
  | Some row => Normal (default false (row !! j))
  end.

(** The collision test of one candidate position, with its two [break]s:
    the body says whether the scan goes on. *)
Definition fitsCell (tempGrid : list (list bool)) (def : ItemDefinition.t)
    (x y r c : nat) : completion bool :=
  occ ← shapeCell def r c;
  if occ : bool then
    taken ← tempCell tempGrid (y + r) (x + c);
    Normal (negb taken)
  else Normal true.

Definition fitsAt (tempGrid : list (list bool)) (def : ItemDefinition.t) (x y : nat)
  : completion bool :=
  forallM (λ r,
    forallM (λ c, fitsCell tempGrid def x y r c)
      (seq 0 (ItemDefinition.width def)))
    (seq 0 (ItemDefinition.height def)).

(** [tempGrid[i][j] = true]: a missing row throws, a missing entry makes
    the row grow (the holes are [undefined], read as [false] by
    [tempCell]). *)
Definition tempMark (tempGrid : list (list bool)) (i j : nat)
  : completion (list (list bool)) :=
  match tempGrid !! i with
  | None => TypeError
  | Some row => Normal (<[i := arraySet false row j true]> tempGrid)
  end.

Definition markCell (tempGrid : list (list bool)) (def : ItemDefinition.t)
    (x y r c : nat) : completion (list (list bool)) :=
  occ ← shapeCell def r c;
  if occ : bool then tempMark tempGrid (y + r) (x + c) else Normal tempGrid.

Definition markShape (tempGrid : list (list bool)) (def : ItemDefinition.t) (x y : nat)
  : completion (list (list bool)) :=
  foldlM (λ tempGrid r,
    foldlM (λ tempGrid c, markCell tempGrid def x y r c)
      tempGrid (seq 0 (ItemDefinition.width def)))
    tempGrid (seq 0 (ItemDefinition.height def)).

(** One candidate position of the scan: when the shape fits, the item is
    pushed with its new coordinates and its cells are marked. *)
Definition tryAt (st : list PlacedItem.t * list (list bool))
    (item : PlacedItem.t) (def : ItemDefinition.t) (x y : nat)
  : completion (option (list PlacedItem.t * list (list bool))) :=
  fits ← fitsAt st.2 def x y;
  if fits : bool then
    tempGrid' ← markShape st.2 def x y;
    Normal (Some (st.1 ++ [PlacedItem.withXY item (Z.of_nat x) (Z.of_nat y)], tempGrid'))
  else Normal None.

(** The body of the loop over [sortedItems]; the state is
    [(newItems, tempGrid)], and [placed] is the [Some] of the scan. *)
Definition placeItem (this : t) (defs : Catalog)
    (st : list PlacedItem.t * list (list bool)) (item : PlacedItem.t)
  : completion (list PlacedItem.t * list (list bool)) :=
  match defs !! PlacedItem.defId item with
  | None => TypeError
  | Some def =>
      placed ←
        firstM (λ y,
          firstM (λ x, tryAt st item def x y)
            (upto (Z.of_nat (cols this) - Z.of_nat (ItemDefinition.width def))))
          (upto (Z.of_nat (rows this) - Z.of_nat (ItemDefinition.height def)));
      Normal (default st placed)
  end.

Definition organize (this : t) (defs : Catalog) : completion (list PlacedItem.t) :=
  sortedItems ← sortBy (compareArea defs) (items this);
  st ← foldlM (placeItem this defs) ([], newGrid this false) sortedItems;
  Normal st.1.
End BackpackSystem.

(** ** [organize] on a store of objects

    To speak about what [organize] mutates and what it allocates, the same
    method is written once more over an explicit store: [this.items] is a
    reference to an array of references to [PlacedItem] records (the array
    the caller handed to the constructor), [[...this.items]], [[]] and
    [{ ...item, x, y }] allocate, [sort] and [push] write.  [tempGrid] never
    leaves the method and stays a value. *)

Module Store.
Abbreviation ref := nat.

Inductive object : Type :=
  | ItemObj (item : PlacedItem.t)
  | ArrayObj (elems : list ref).

(** The reference of an object is its index; allocation appends. *)
Abbreviation store := (list object).

Definition alloc (σ : store) (o : object) : ref * store := (length σ, σ ++ [o]).

Definition readItem (σ : store) (r : ref) : completion PlacedItem.t :=
  match σ !! r with
  | Some (ItemObj item) => Normal item
  | _ => TypeError
  end.

Definition readArray (σ : store) (r : ref) : completion (list ref) :=
  match σ !! r with
  | Some (ArrayObj elems) => Normal elems
  | _ => TypeError
  end.

(** [array.push(r)] *)
Definition push (σ : store) (array r : ref) : completion store :=
  elems ← readArray σ array;
  Normal (<[array := ArrayObj (elems ++ [r])]> σ).

(** The object [new BackpackSystem(rows, cols, items)]. *)
Record t : Type := mk {
  rows : nat;
  cols : nat;
  items : ref
}.

(** The comparator of [sort], reading [a.defId] and [b.defId]. *)
Definition compareArea (defs : Catalog) (σ : store) (a b : ref) : completion Z :=
  itemA ← readItem σ a;
  itemB ← readItem σ b;
  BackpackSystem.compareArea defs itemA itemB.

Definition tryAt (newItems : ref) (st : store * list (list bool))
    (item : PlacedItem.t) (def : ItemDefinition.t) (x y : nat)
  : completion (option (store * list (list bool))) :=
  fits ← BackpackSystem.fitsAt st.2 def x y;
  if fits : bool then
    let '(r, σ) := alloc st.1 (ItemObj (PlacedItem.withXY item (Z.of_nat x) (Z.of_nat y))) in
    σ' ← push σ newItems r;
    tempGrid' ← BackpackSystem.markShape st.2 def x y;
    Normal (Some (σ', tempGrid'))
  else Normal None.

Definition placeItem (this : t) (defs : Catalog) (newItems : ref)
    (st : store * list (list bool)) (itemRef : ref)
  : completion (store * list (list bool)) :=
  item ← readItem st.1 itemRef;
  match defs !! PlacedItem.defId item with
  | None => TypeError
  | Some def =>
      placed ←
        firstM (λ y,
          firstM (λ x, tryAt newItems st item def x y)
            (upto (Z.of_nat (cols this) - Z.of_nat (ItemDefinition.width def))))
          (upto (Z.of_nat (rows this) - Z.of_nat (ItemDefinition.height def)));
      Normal (default st placed)
  end.

(** Returns the reference of [newItems] and the final store. *)
Definition organize (this : t) (defs : Catalog) (σ : store) : completion (ref * store) :=
  elems ← readArray σ (items this);
  let '(sortedItems, σ1) := alloc σ (ArrayObj elems) in
  sorted ← BackpackSystem.sortBy (compareArea defs σ1) elems;
  let σ2 := <[sortedItems := ArrayObj sorted]> σ1 in
  let '(newItems, σ3) := alloc σ2 (ArrayObj []) in
  let tempGrid := replicate (rows this) (replicate (cols this) false) in
  st ← foldlM (placeItem this defs newItems) (σ3, tempGrid) sorted;
  Normal (newItems, st.1).

(** The record stored at a reference. *)
Definition itemAt (σ : store) (r : ref) (item : PlacedItem.t) : Prop :=
  σ !! r = Some (ItemObj item).

(** The array of records stored at a reference. *)
Definition itemsAt (σ : store) (array : ref) (l : list PlacedItem.t) : Prop :=
  ∃ elems, σ !! array = Some (ArrayObj elems) ∧ Forall2 (itemAt σ) elems l.

(** The object [this] in the store [σ] is the backpack [sys]. *)
Definition denotes (σ : store) (this : t) (sys : BackpackSystem.t) : Prop :=
  rows this = BackpackSystem.rows sys ∧ cols this = BackpackSystem.cols sys
  ∧ itemsAt σ (items this) (BackpackSystem.items sys).
End Store.

(** ** The catalog of [constants.ts] *)

Definition potion : ItemDefinition.t :=
  ItemDefinition.mk "potion" "Health Potion" "bg-red-500" [[1]; [1]]%Z 1 2.
Definition sword : ItemDefinition.t :=
  ItemDefinition.mk "sword" "Iron Sword" "bg-slate-400"
    [[0; 1; 0]; [0; 1; 0]; [1; 1; 1]; [0; 1; 0]]%Z 3 4.
Definition shield : ItemDefinition.t :=
  ItemDefinition.mk "shield" "Wooden Shield" "bg-amber-600" [[1; 1]; [1; 1]]%Z 2 2.
Definition bow : ItemDefinition.t :=
  ItemDefinition.mk "bow" "Longbow" "bg-emerald-600" [[1; 0]; [1; 0]; [1; 1]]%Z 2 3.
Definition gem : ItemDefinition.t :=
  ItemDefinition.mk "gem" "Magic Gem" "bg-purple-500" [[1]]%Z 1 1.
Definition boots : ItemDefinition.t :=
  ItemDefinition.mk "boots" "Leather Boots" "bg-yellow-700" [[1; 1]; [1; 0]]%Z 2 2.

Definition ITEM_DEFINITIONS : Catalog :=
  list_to_map
    [("potion", potion); ("sword", sword); ("shield", shield);
     ("bow", bow); ("gem", gem); ("boots", boots)].

Definition GRID_ROWS : nat := 8.
Definition GRID_COLS : nat := 8.

(** ** Vocabulary of the specification *)

(** The data-model invariant of a shape: [height] rows of [width] entries. *)
Definition wellFormed (def : ItemDefinition.t) : Prop :=
  length (ItemDefinition.shape def) = ItemDefinition.height def
  ∧ Forall (λ row, length row = ItemDefinition.width def) (ItemDefinition.shape def).

Definition wellFormedCatalog (defs : Catalog) : Prop :=
  map_Forall (λ _ def, wellFormed def) defs.

(** The catalog covers a list of items: every item type is known. *)
Definition covering (defs : Catalog) (items : list PlacedItem.t) : Prop :=
  Forall (λ item, is_Some (defs !! PlacedItem.defId item)) items.

(** [(r, c)] is an occupied cell of the shape. *)
Definition occupied (def : ItemDefinition.t) (r c : nat) : Prop :=
  r < ItemDefinition.height def ∧ c < ItemDefinition.width def
  ∧ ∃ row, ItemDefinition.shape def !! r = Some row ∧ row !! c = Some 1%Z.

(** The absolute cell [(gx, gy)] is an occupied cell of the shape translated
    to [(x, y)]. *)
Definition occupiesAt (def : ItemDefinition.t) (x y gx gy : Z) : Prop :=
  ∃ r c, occupied def r c ∧ gx = (x + Z.of_nat c)%Z ∧ gy = (y + Z.of_nat r)%Z.

(** A placed item of a known type covers the absolute cell [(gx, gy)]. *)
Definition covers (defs : Catalog) (item : PlacedItem.t) (gx gy : Z) : Prop :=
  ∃ def, defs !! PlacedItem.defId item = Some def
         ∧ occupiesAt def (PlacedItem.x item) (PlacedItem.y item) gx gy.

(** The bounds condition of the placement validator. *)
Definition inBounds (this : BackpackSystem.t) (def : ItemDefinition.t) (x y : Z) : Prop :=
  (0 ≤ x ∧ 0 ≤ y
   ∧ x + Z.of_nat (ItemDefinition.width def) ≤ Z.of_nat (BackpackSystem.cols this)
   ∧ y + Z.of_nat (ItemDefinition.height def) ≤ Z.of_nat (BackpackSystem.rows this))%Z.
(** An item leaves its mark in the occupancy grid: it is not the ignored
    instance, its type is known, and it covers the cell. *)
Definition stamps (defs : Catalog) (ignore : option string)
    (item : PlacedItem.t) (gx gy : Z) : Prop :=
  Some (PlacedItem.instanceId item) ≠ ignore ∧ covers defs item gx gy.

(** The content the specification gives to the cell [(gx, gy)]: the instance
    id of the last item in list order that stamps it, [null] when none does. *)
Definition owner (defs : Catalog) (ignore : option string)
    (items : list PlacedItem.t) (gx gy : Z) (cell : option string) : Prop :=
  match cell with
  | Some id =>
      ∃ before item after,
        items = before ++ item :: after
        ∧ PlacedItem.instanceId item = id
        ∧ stamps defs ignore item gx gy
        ∧ Forall (λ item', ¬ stamps defs ignore item' gx gy) after
  | None => Forall (λ item, ¬ stamps defs ignore item gx gy) items
  end.

(** [grid[gy][gx]] for indices known to be naturals. *)
Definition cellAt {A} (grid : list (list A)) (gy gx : nat) : option A :=
  row ← grid !! gy; row !! gx.

(** A grid of the dimensions of the backpack. *)
Definition dims {A} (this : BackpackSystem.t) (grid : list (list A)) : Prop :=
  length grid = BackpackSystem.rows this
  ∧ Forall (λ row, length row = BackpackSystem.cols this) grid.

(** The cells [(r, c)] visited by the two nested loops over a shape. *)
Definition cellsOf (h w : nat) : list (nat * nat) :=
  r ← seq 0 h; c ← seq 0 w; [(r, c)].

(** The bounding-box area [organize] sorts by ([0] for an unknown type). *)
Definition areaOf (defs : Catalog) (item : PlacedItem.t) : Z :=
  match defs !! PlacedItem.defId item with
  | Some def => Z.of_nat (ItemDefinition.width def * ItemDefinition.height def)
  | None => 0
  end.

(** Largest area first. *)
Definition descending (defs : Catalog) (l : list PlacedItem.t) : Prop :=
  StronglySorted (λ a b, (areaOf defs b ≤ areaOf defs a)%Z) l.

(** Items of equal area keep their relative order. *)
Definition sameOrderPerArea (defs : Catalog) (l l' : list PlacedItem.t) : Prop :=
  ∀ k : Z, filter (λ item, areaOf defs item = k) l'
           = filter (λ item, areaOf defs item = k) l.

(** The shape of type [def] fits at the top-left position [(x, y)] next to the
    items placed so far: it lies within the grid and shares no cell with
    any of them. *)
Definition feasible (this : BackpackSystem.t) (defs : Catalog)
    (placed : list PlacedItem.t) (def : ItemDefinition.t) (x y : nat) : Prop :=
  x + ItemDefinition.width def ≤ BackpackSystem.cols this
  ∧ y + ItemDefinition.height def ≤ BackpackSystem.rows this
  ∧ ∀ gx gy, occupiesAt def (Z.of_nat x) (Z.of_nat y) gx gy →
             ∀ p, p ∈ placed → ¬ covers defs p gx gy.

(** [(x, y)] is the first feasible position of the row-major scan: top to
    bottom, and left to right within a row. *)
Definition firstFeasible (this : BackpackSystem.t) (defs : Catalog)
    (placed : list PlacedItem.t) (def : ItemDefinition.t) (x y : nat) : Prop :=
  feasible this defs placed def x y
  ∧ ∀ x' y', y' < y ∨ (y' = y ∧ x' < x) → ¬ feasible this defs placed def x' y'.

(** First-fit packing as the specification words it: the queue is taken in
    order; an item goes to its first feasible position and joins the placed
    items, or is dropped when no position is feasible. *)
Inductive packs (this : BackpackSystem.t) (defs : Catalog)
  : list PlacedItem.t → list PlacedItem.t → list PlacedItem.t → Prop :=
  | packs_done placed : packs this defs placed [] placed
  | packs_place placed item def x y queue out :
      defs !! PlacedItem.defId item = Some def →
      firstFeasible this defs placed def x y →
      packs this defs
        (placed ++ [PlacedItem.withXY item (Z.of_nat x) (Z.of_nat y)]) queue out →
      packs this defs placed (item :: queue) out
  | packs_drop placed item def queue out :
      defs !! PlacedItem.defId item = Some def →
      (∀ x y, ¬ feasible this defs placed def x y) →
      packs this defs placed queue out →
      packs this defs placed (item :: queue) out.

(** The state of the loop of [organize] is consistent: the working grid has
    the dimensions of the backpack and marks exactly the cells covered by the
    items placed so far. *)
Definition packed (this : BackpackSystem.t) (defs : Catalog)
    (st : list PlacedItem.t * list (list bool)) : Prop :=
  dims this st.2
  ∧ ∀ i j, i < BackpackSystem.rows this → j < BackpackSystem.cols this →
      (cellAt st.2 i j = Some true
       ∧ ∃ p, p ∈ st.1 ∧ covers defs p (Z.of_nat j) (Z.of_nat i))
      ∨ (cellAt st.2 i j = Some false
         ∧ ∀ p, p ∈ st.1 → ¬ covers defs p (Z.of_nat j) (Z.of_nat i)).

(** A list of placed items respects the invariants of the data model: every
    footprint lies within the grid, and no two items (at different places of
    the list) cover a common cell. *)
Definition tidy (this : BackpackSystem.t) (defs : Catalog) (l : list PlacedItem.t) : Prop :=
  (∀ p, p ∈ l → ∃ def, defs !! PlacedItem.defId p = Some def
                        ∧ inBounds this def (PlacedItem.x p) (PlacedItem.y p))
  ∧ (∀ i j p q, i ≠ j → l !! i = Some p → l !! j = Some q →
       ∀ gx gy, ¬ (covers defs p gx gy ∧ covers defs q gx gy)).

(** The state of the loop of [Store.organize] mirrors the state of the loop
    of [organize]: the same working grid; the objects of the initial store
    [σ0] untouched; [newItems] allocated after [σ0] and holding references,
    allocated after [σ0] as well and all different, to the records placed so
    far. *)
Definition mirrors (σ0 : Store.store) (newItems : Store.ref)
    (st : list PlacedItem.t * list (list bool))
    (st' : Store.store * list (list bool)) : Prop :=
  st'.2 = st.2
  ∧ length σ0 ≤ newItems
  ∧ (∀ r, r < length σ0 → st'.1 !! r = σ0 !! r)
  ∧ ∃ refs, st'.1 !! newItems = Some (Store.ArrayObj refs)
            ∧ Forall (λ r, length σ0 ≤ r) refs
            ∧ NoDup refs
            ∧ Forall2 (Store.itemAt st'.1) refs st.1.

(** ** Scenarios *)

(** An 8 by 8 backpack holding one potion, instance [p1], at (0,0). *)
Definition potionAtOrigin : PlacedItem.t := PlacedItem.mk "p1" "potion" 0 0 0.
Definition onePotion : BackpackSystem.t :=
  BackpackSystem.mk GRID_ROWS GRID_COLS [potionAtOrigin].

(** An 8 by 8 backpack holding the boots, instance [b1], at (0,0). *)
Definition bootsAtOrigin : PlacedItem.t := PlacedItem.mk "b1" "boots" 0 0 0.
Definition oneBoots : BackpackSystem.t :=
  BackpackSystem.mk GRID_ROWS GRID_COLS [bootsAtOrigin].

(** A 2 by 2 backpack and four gems [A], [B], [C], [D] queued in this order
    (their stored coordinates do not matter to [organize]). *)
Definition fourGems : BackpackSystem.t :=
  BackpackSystem.mk 2 2
    [PlacedItem.mk "A" "gem" 0 0 0; PlacedItem.mk "B" "gem" 0 0 0;
     PlacedItem.mk "C" "gem" 0 0 0; PlacedItem.mk "D" "gem" 0 0 0].

(** The same backpack as an object: the four records at the references 0 to
    3, their array at reference 4. *)
Definition fourGemsStore : Store.store :=
  (Store.ItemObj <$> BackpackSystem.items fourGems) ++ [Store.ArrayObj [0; 1; 2; 3]].
Definition fourGemsObject : Store.t := Store.mk 2 2 4.

(** An 8 by 8 backpack with one item whose type is not in the catalog. *)
Definition staleItem : PlacedItem.t := PlacedItem.mk "s1" "lantern" 0 0 0.
Definition oneStale : BackpackSystem.t :=
  BackpackSystem.mk GRID_ROWS GRID_COLS [staleItem].

(** ** The application: [App], [BackpackGrid] and [ItemGridVisual]

    The event handlers of [App] are functions of the React state and of what
    the event and the document supply: the pointer position, the bounding
    rectangle of an element ([None] when the element is missing) and the
    result of [crypto.randomUUID()].  Pixel positions are modelled as
    integers; on integers [Math.round(n / CELL_SIZE)] is [roundDiv].  State
    setters are applied in the order of the calls; what React keeps of the
    state when a handler throws is not modelled. *)

Definition CELL_SIZE : Z := 48.

(** [Math.round(n / d)] for integers [n] and [d > 0]: the nearest integer,
    a half going up. *)
Definition roundDiv (n d : Z) : Z := (2 * n + d) / (2 * d).

(** The rectangle of [getBoundingClientRect()]. *)
Module DOMRect.
Record t : Type := mk {
  left : Z;
  top : Z;
  right : Z;
  bottom : Z
}.
End DOMRect.

(** [DraggingState] is tagged by [source]: built by
    [handleDragStartFromStaging] it has neither [instanceId] nor
    [originalX], [originalY]; built by [handlePickupFromBackpack] it has
    all three. *)
Module DraggingState.
Inductive t : Type :=
  | staging (defId : string) (offset : Z * Z)
  | backpack (defId : string) (instanceId : string) (originalX originalY : Z)
             (offset : Z * Z).

Definition defId (d : t) : string :=
  match d with
  | staging defId _ => defId
  | backpack defId _ _ _ _ => defId
  end.

Definition instanceId (d : t) : option string :=
  match d with
  | staging _ _ => None
  | backpack _ instanceId _ _ _ => Some instanceId
  end.

Definition offset (d : t) : Z * Z :=
  match d with
  | staging _ offset => offset
  | backpack _ _ _ _ offset => offset
  end.
End DraggingState.

Module App.
(** The four [useState] cells. *)
Record t : Type := mk {
  backpackItems : list PlacedItem.t;
  dragging : option DraggingState.t;
  dragPos : option (Z * Z);
  spawnQueue : list string
}.

Definition handleClear (st : t) : t :=
  mk [] (dragging st) (dragPos st) (spawnQueue st).

Definition handleOrganize (st : t) : completion t :=
  let sys := BackpackSystem.mk GRID_ROWS GRID_COLS (backpackItems st) in
  organized ← BackpackSystem.organize sys ITEM_DEFINITIONS;
  Normal (mk organized (dragging st) (dragPos st) (spawnQueue st)).

Definition handleDragStartFromStaging (st : t) (defId : string) (clientX clientY : Z) : t :=
  mk (backpackItems st)
     (Some (DraggingState.staging defId (CELL_SIZE / 2, CELL_SIZE / 2))%Z)
     (Some (clientX, clientY))
     (spawnQueue st).

Definition handlePickupFromBackpack (st : t) (instanceId : string) (x y : Z)
    (clientX clientY : Z) : completion t :=
  match list_find (λ i, PlacedItem.instanceId i = instanceId) (backpackItems st) with
  | None => Normal st
  | Some (_, item) =>
      let items' :=
        filter (λ i, PlacedItem.instanceId i ≠ instanceId) (backpackItems st) in
      match ITEM_DEFINITIONS !! PlacedItem.defId item with
      | None => TypeError
      | Some def =>
          let offset :=
            ((Z.of_nat (ItemDefinition.width def) * CELL_SIZE) / 2,
             (Z.of_nat (ItemDefinition.height def) * CELL_SIZE) / 2)%Z in
          Normal (mk items'
                     (Some (DraggingState.backpack (PlacedItem.defId item)
                              (PlacedItem.instanceId item) x y offset))
                     (Some (clientX, clientY))
                     (spawnQueue st))
      end
  end.

Definition handleMouseMove (st : t) (clientX clientY : Z) : t :=
  match dragging st with
  | Some _ => mk (backpackItems st) (dragging st) (Some (clientX, clientY)) (spawnQueue st)
  | None => st
  end.

(** The mouse is inside the rectangle, borders included. *)
Definition inside (rect : DOMRect.t) (clientX clientY : Z) : bool :=
  (clientX >=? DOMRect.left rect)%Z && (clientX <=? DOMRect.right rect)%Z
  && (clientY >=? DOMRect.top rect)%Z && (clientY <=? DOMRect.bottom rect)%Z.

(** The grid cell [(gx, gy)] of a drop. *)
Definition dropCell (d : DraggingState.t) (rect : DOMRect.t) (clientX clientY : Z) : Z * Z :=
  let relX := (clientX - DOMRect.left rect - (DraggingState.offset d).1)%Z in
  let relY := (clientY - DOMRect.top rect - (DraggingState.offset d).2)%Z in
  (roundDiv relX CELL_SIZE, roundDiv relY CELL_SIZE).

(** [dragging.instanceId || crypto.randomUUID()]: the empty string is falsy
    as well. *)
Definition droppedId (d : DraggingState.t) (uuid : string) : string :=
  match DraggingState.instanceId d with
  | Some id => if decide (id = "") then uuid else id
  | None => uuid
  end.

(** The first half of [handleMouseUp]: the item placed by the drop, if the
    backpack element is there, the mouse is inside it and the placement
    validates. *)
Definition tryDrop (st : t) (d : DraggingState.t) (backpackEl : option DOMRect.t)
    (clientX clientY : Z) (uuid : string) : completion (option PlacedItem.t) :=
  match backpackEl with
  | None => Normal None
  | Some rect =>
      if inside rect clientX clientY then
        let '(gx, gy) := dropCell d rect clientX clientY in
        let sys := BackpackSystem.mk GRID_ROWS GRID_COLS (backpackItems st) in
        match ITEM_DEFINITIONS !! DraggingState.defId d with
        | None => TypeError
        | Some def =>
            ok ← BackpackSystem.canPlaceItem sys def gx gy None;
            if ok : bool then
              Normal (Some (PlacedItem.mk (droppedId d uuid) (DraggingState.defId d) gx gy 0))
            else Normal None
        end
      else Normal None
  end.

Definition handleMouseUp (st : t) (backpackEl : option DOMRect.t)
    (clientX clientY : Z) (uuid : string) : completion t :=
  match dragging st with
  | None => Normal st
  | Some d =>
      dropped ← tryDrop st d backpackEl clientX clientY uuid;
      match dropped with
      | Some newItem =>
          Normal (mk (backpackItems st ++ [newItem]) None None (spawnQueue st))
      | None =>
          match d with
          | DraggingState.backpack defId instanceId originalX originalY _ =>
              let returnedItem := PlacedItem.mk instanceId defId originalX originalY 0 in
              Normal (mk (backpackItems st ++ [returnedItem]) None None (spawnQueue st))
          | DraggingState.staging defId _ =>
              Normal (mk (backpackItems st) None None (spawnQueue st ++ [defId]))
          end
      end
  end.
End App.

Module BackpackGrid.
(** The [useMemo] of the snap position; [gridRect] is the rectangle of
    [gridRef.current]. *)
Definition snapPosition (draggingState : option DraggingState.t)
    (dragPos : option (Z * Z)) (gridRect : option DOMRect.t) : option (Z * Z) :=
  match draggingState, dragPos, gridRect with
  | Some d, Some (posX, posY), Some rect =>
      let rawLeft := (posX - (DraggingState.offset d).1 - DOMRect.left rect)%Z in
      let rawTop := (posY - (DraggingState.offset d).2 - DOMRect.top rect)%Z in
      Some (roundDiv rawLeft CELL_SIZE, roundDiv rawTop CELL_SIZE)
  | _, _, _ => None
  end.

Definition isValidPlacement (items : list PlacedItem.t)
    (draggingState : option DraggingState.t) (dragPos : option (Z * Z))
    (gridRect : option DOMRect.t) : completion bool :=
  match snapPosition draggingState dragPos gridRect, draggingState with
  | Some (gridX, gridY), Some d =>
      let sys := BackpackSystem.mk GRID_ROWS GRID_COLS items in
      match ITEM_DEFINITIONS !! DraggingState.defId d with
      | None => TypeError
      | Some def =>
          BackpackSystem.canPlaceItem sys def gridX gridY (DraggingState.instanceId d)
      end
  | _, _ => Normal false
  end.

(** The [onMouseDown] of a placed item: [onPickup] is
    [handlePickupFromBackpack]. *)
Definition onMouseDown (st : App.t) (item : PlacedItem.t) (clientX clientY : Z)
  : completion App.t :=
  App.handlePickupFromBackpack st (PlacedItem.instanceId item)
    (PlacedItem.x item) (PlacedItem.y item) clientX clientY.
End BackpackGrid.

Module ItemGridVisual.
(** One rendered cell: its [top] and [left] offsets and its colour class. *)
Record block : Type := mkBlock {
  top : Z;
  left : Z;
  bgColor : string
}.

(** The nested [map] of the render: [null] for a cell equal to [0], a block
    for any other cell. *)
Definition render (definition : ItemDefinition.t) (isGhost isValid : bool)
  : list (list (option block)) :=
  imap (λ r row,
    imap (λ c cell,
      if decide (cell = 0%Z) then None
      else
        let bgColor :=
          if isGhost then (if isValid then "bg-green-400/50" else "bg-red-400/50")
          else ItemDefinition.color definition in
        Some (mkBlock (Z.of_nat r * CELL_SIZE + 1) (Z.of_nat c * CELL_SIZE + 1) bgColor))
      row)
    (ItemDefinition.shape definition).
End ItemGridVisual.

(** The types of the placed items and of the dragged item are in the
    catalog. *)
Definition knownTypes (st : App.t) : Prop :=
  covering ITEM_DEFINITIONS (App.backpackItems st)
  ∧ ∀ d, App.dragging st = Some d →
         is_Some (ITEM_DEFINITIONS !! DraggingState.defId d).

(** Every entry of a shape matrix is [0] or [1]. *)
Definition binary (def : ItemDefinition.t) : Prop :=
  Forall (Forall (λ cell, cell = 0%Z ∨ cell = 1%Z)) (ItemDefinition.shape def).

(** ** Further vocabulary *)

(** No two items at different places of the list cover a common cell. *)
Definition nonOverlapping (defs : Catalog) (l : list PlacedItem.t) : Prop :=
  ∀ i j p q, i ≠ j → l !! i = Some p → l !! j = Some q →
    ∀ gx gy, ¬ (covers defs p gx gy ∧ covers defs q gx gy).

(** Two placed items are the same instance up to their coordinates. *)
Definition sameInstance (a b : PlacedItem.t) : Prop :=
  PlacedItem.instanceId a = PlacedItem.instanceId b
  ∧ PlacedItem.defId a = PlacedItem.defId b
  ∧ PlacedItem.rotation a = PlacedItem.rotation b.

(** * Properties *)

Import BackpackSystem.

(** ** The loop combinators *)

Section Loops.
Context {A : Type}.

Lemma forallM_all_true (body : A → completion bool) (l : list A) :
  (∀ a, a ∈ l → body a = Normal true) → forallM body l = Normal true.
Proof.
  induction l as [|a l IH]; intros Hall; [done|].
  cbn. rewrite (Hall a) by left. cbn. apply IH. intros b Hb. apply Hall. by right.
Qed.

(** When every body completes normally, so does the loop, and its verdict
    is the conjunction of the bodies' verdicts. *)
Lemma forallM_total (body : A → completion bool) (l : list A) :
  (∀ a, a ∈ l → ∃ b, body a = Normal b) →
  ∃ b, forallM body l = Normal b
       ∧ (b = true ↔ ∀ a, a ∈ l → body a = Normal true).
Proof.
  induction l as [|a l IH]; intros Hall.
  - exists true. split; [done|]. split; [|done]. intros _ a Ha. by apply elem_of_nil in Ha.
  - destruct (Hall a) as [b Hb]; [left|].
    destruct IH as (b' & Hrun & Hiff); [intros; apply Hall; by right|].
    cbn. rewrite Hb. cbn. destruct b.
    + exists b'. split; [done|]. rewrite Hiff. split.
      * intros H a' [->|Ha']%elem_of_cons; auto.
      * intros H a' Ha'. apply H. by right.
    + exists false. split; [done|]. split; [done|].
      intros H. specialize (H a (list_elem_of_here _ _)). congruence.
Qed.
End Loops.

Lemma shapeCell_total def r c :
  r < length (ItemDefinition.shape def) → ∃ b, shapeCell def r c = Normal b.
Proof.
  intros Hr. unfold shapeCell.
  destruct (lookup_lt_is_Some_2 _ _ Hr) as [row ->]. eauto.
Qed.

Lemma shapeCell_true def r c :
  shapeCell def r c = Normal true ↔
  ∃ row, ItemDefinition.shape def !! r = Some row ∧ row !! c = Some 1%Z.
Proof.
  unfold shapeCell. destruct (_ !! r) as [row|]; split.
  - intros [= H%bool_decide_eq_true_1]. eauto.
  - intros (row' & [= <-] & H). by rewrite bool_decide_eq_true_2.
  - done.
  - by intros (? & ? & ?).
Qed.

(** ** [canPlaceItem] *)

Lemma outOfBounds_false this def x y :
  outOfBounds this def x y = false ↔ inBounds this def x y.
Proof.
  unfold outOfBounds, inBounds. rewrite !orb_false_iff.
  rewrite !Z.ltb_ge, !Z.gtb_ltb, !Z.ltb_ge. tauto.
Qed.

Lemma index_newGrid {A} this (v : A) (gy gx : Z) :
  (0 ≤ gy < Z.of_nat (rows this))%Z → (0 ≤ gx < Z.of_nat (cols this))%Z →
  ∃ row, index (newGrid this v) gy = Some row ∧ index row gx = Some v.
Proof.
  intros Hy Hx. exists (replicate (cols this) v). unfold index, newGrid.
  destruct (Z.ltb_spec gy 0); [lia|]. destruct (Z.ltb_spec gx 0); [lia|].
  split; apply lookup_replicate_2; lia.
Qed.

(** The result of the validator for a shape whose rows are all there. *)
Lemma canPlaceItem_inBounds this def x y ignore :
  ItemDefinition.height def ≤ length (ItemDefinition.shape def) →
  inBounds this def x y →
  canPlaceItem this def x y ignore = Normal true.
Proof.
  intros Hrows Hin. unfold canPlaceItem.
  rewrite (proj2 (outOfBounds_false _ _ _ _) Hin).
  destruct Hin as (Hx & Hy & Hw & Hh).
  apply forallM_all_true. intros r Hr%elem_of_seq.
  apply forallM_all_true. intros c Hc%elem_of_seq.
  destruct (shapeCell_total def r c) as [occ ->]; [lia|]. cbn.
  destruct occ; [|done].
  destruct (index_newGrid this (@None string) (y + Z.of_nat r) (x + Z.of_nat c))
    as (row & Hrow & Hcell); [lia..|].
  unfold cellIsNull, getOccupancyGrid. rewrite Hrow. f_equal.
  by apply bool_decide_eq_true_2.
Qed.

Lemma canPlaceItem_outOfBounds this def x y ignore :
  ¬ inBounds this def x y → canPlaceItem this def x y ignore = Normal false.
Proof.
  intros Hout. unfold canPlaceItem.
  destruct (outOfBounds this def x y) eqn:Hb; [done|].
  by apply outOfBounds_false in Hb.
Qed.


Lemma wellFormed_rows def :
  wellFormed def → ItemDefinition.height def ≤ length (ItemDefinition.shape def).
Proof. intros [-> _]. done. Qed.

(** C8. Whenever [x < 0], [y < 0], [x + width > cols] or [y + height > rows],
    [canPlaceItem] returns [false], whatever the shape, the placed items and
    the ignore argument are; the answer is given by the bounds check alone,
    before the occupancy grid or the shape matrix is read (no subscript can
    throw, even for a shape matrix with missing rows). *)
Theorem canPlaceItem_bounds_exclusive this def x y ignore :
  (x < 0 ∨ y < 0
   ∨ x + Z.of_nat (ItemDefinition.width def) > Z.of_nat (cols this)
   ∨ y + Z.of_nat (ItemDefinition.height def) > Z.of_nat (rows this))%Z →
  canPlaceItem this def x y ignore = Normal false.
Proof.
  intros Hout. apply canPlaceItem_outOfBounds. unfold inBounds. lia.
Qed.

Lemma canPlaceItem_bounds_exclusive_witness :
  canPlaceItem onePotion sword 6 0 None = Normal false.
Proof.
  apply canPlaceItem_bounds_exclusive. right; right; left. vm_compute. reflexivity.
Defined.

(** C9. On an empty item list [canPlaceItem] returns [true] at every position
    that satisfies the bounds condition. *)
Theorem canPlaceItem_empty_grid nrows ncols def x y ignore :
  wellFormed def →
  inBounds (BackpackSystem.mk nrows ncols []) def x y →
  canPlaceItem (BackpackSystem.mk nrows ncols []) def x y ignore = Normal true.
Proof.
  intros Hwf Hin. apply canPlaceItem_inBounds; [by apply wellFormed_rows|done].
Qed.

Lemma canPlaceItem_empty_grid_witness :
  canPlaceItem (BackpackSystem.mk 8 8 []) sword 5 4 None = Normal true.
Proof.
  apply canPlaceItem_empty_grid.
  - split; [reflexivity|]. repeat constructor.
  - unfold inBounds. cbn. lia.
Defined.

(** C3. For a shape that satisfies the data-model invariant, [canPlaceItem]
    returns [true] exactly when [x >= 0], [y >= 0], [x + width <= cols] and
    [y + height <= rows], and [false] otherwise; its result is the same for
    every list of placed items and every ignore argument, and
    [getOccupancyGrid] returns the all-null grid. *)
Theorem canPlaceItem_iff_inBounds this def x y ignore :
  wellFormed def →
  (canPlaceItem this def x y ignore = Normal true ↔ inBounds this def x y)
  ∧ (canPlaceItem this def x y ignore = Normal false ↔ ¬ inBounds this def x y)
  ∧ (∀ items' ignore',
       canPlaceItem (BackpackSystem.mk (rows this) (cols this) items') def x y ignore'
       = canPlaceItem this def x y ignore)
  ∧ getOccupancyGrid this ignore = replicate (rows this) (replicate (cols this) None).
Proof.
  intros Hwf%wellFormed_rows. split_and!; [| | done..].
  - split; [|by apply canPlaceItem_inBounds].
    intros Hrun. apply outOfBounds_false.
    unfold canPlaceItem in Hrun. by destruct (outOfBounds _ _ _ _).
  - split; [|by apply canPlaceItem_outOfBounds].
    intros Hrun Hin. by rewrite canPlaceItem_inBounds in Hrun.
Qed.

Lemma canPlaceItem_iff_inBounds_witness :
  (canPlaceItem onePotion shield 0 0 None = Normal true ↔ inBounds onePotion shield 0 0)
  ∧ (canPlaceItem onePotion shield 0 0 None = Normal false ↔ ¬ inBounds onePotion shield 0 0)
  ∧ (∀ items' ignore',
       canPlaceItem (BackpackSystem.mk (rows onePotion) (cols onePotion) items')
         shield 0 0 ignore'
       = canPlaceItem onePotion shield 0 0 None)
  ∧ getOccupancyGrid onePotion None
    = replicate (rows onePotion) (replicate (cols onePotion) None).
Proof.
  apply canPlaceItem_iff_inBounds. split; [reflexivity|]. repeat constructor.
Defined.

Lemma potionAtOrigin_covers_origin : covers ITEM_DEFINITIONS potionAtOrigin 0 0.
Proof.
  exists potion. split; [reflexivity|]. exists 0, 0. split; [|done].
  unfold occupied. cbn. split_and!; [lia..|]. by exists [1%Z].
Qed.

(** C1. The placed potion covers the cell (0,0), the shield translated to
    (0,0) occupies the same cell and the potion is not ignored, and yet
    [canPlaceItem] accepts the shield there. *)
Theorem canPlaceItem_accepts_overlap :
  potionAtOrigin ∈ items onePotion
  ∧ covers ITEM_DEFINITIONS potionAtOrigin 0 0
  ∧ occupiesAt shield 0 0 0 0
  ∧ canPlaceItem onePotion shield 0 0 None = Normal true.
Proof.
  split_and!.
  - apply list_elem_of_here.
  - apply potionAtOrigin_covers_origin.
  - exists 0, 0. split; [|done]. unfold occupied. cbn.
    split_and!; [lia..|]. by exists [1%Z; 1%Z].
  - reflexivity.
Qed.

(** C2. Putting the placed potion back at its own position is accepted with
    its instance id as the ignore argument, and is accepted as well without
    any ignore argument: the item does not collide with itself. *)
Theorem canPlaceItem_accepts_self_overlap :
  potionAtOrigin ∈ items onePotion
  ∧ covers ITEM_DEFINITIONS potionAtOrigin 0 0
  ∧ canPlaceItem onePotion potion (PlacedItem.x potionAtOrigin)
      (PlacedItem.y potionAtOrigin) (Some (PlacedItem.instanceId potionAtOrigin))
    = Normal true
  ∧ canPlaceItem onePotion potion (PlacedItem.x potionAtOrigin)
      (PlacedItem.y potionAtOrigin) None
    = Normal true.
Proof.
  split_and!; [apply list_elem_of_here|apply potionAtOrigin_covers_origin|reflexivity..].
Qed.

(** ** Loops with a state *)

Section StateLoops.
Context {A S : Type}.

Lemma foldlM_app (body : S → A → completion S) s l1 l2 :
  foldlM body s (l1 ++ l2) = s' ← foldlM body s l1; foldlM body s' l2.
Proof.
  revert s. induction l1 as [|a l1 IH]; intros s; [done|].
  cbn. destruct (body s a); cbn; [apply IH|done].
Qed.

(** A loop invariant indexed by the elements already visited. *)
Lemma foldlM_invariant (body : S → A → completion S) (I : list A → S → Prop) l s :
  I [] s →
  (∀ visited a s, I visited s → a ∈ l →
     ∃ s', body s a = Normal s' ∧ I (visited ++ [a]) s') →
  ∃ s', foldlM body s l = Normal s' ∧ I l s'.
Proof.
  intros Hinit Hstep.
  assert (∀ rest visited s, I visited s → (∀ a, a ∈ rest → a ∈ l) →
            ∃ s', foldlM body s rest = Normal s' ∧ I (visited ++ rest) s') as Hgen.
  { induction rest as [|a rest IH]; intros visited s0 HI Hsub.
    - exists s0. by rewrite app_nil_r.
    - destruct (Hstep visited a s0 HI) as (s1 & Hbody & HI1); [apply Hsub; left|].
      destruct (IH (visited ++ [a]) s1 HI1) as (s2 & Hrun & HI2).
      { intros b Hb. apply Hsub. by right. }
      exists s2. cbn. rewrite Hbody. cbn. rewrite Hrun. split; [done|].
      by rewrite <- app_assoc in HI2. }
  destruct (Hgen l [] s Hinit) as (s' & Hrun & HI); eauto.
Qed.
End StateLoops.

(** Two nested loops over a shape visit the cells of [cellsOf] in order. *)
Lemma foldlM_nested {S} (f : S → nat → nat → completion S) s h w :
  foldlM (λ s r, foldlM (λ s c, f s r c) s (seq 0 w)) s (seq 0 h)
  = foldlM (λ s rc, f s rc.1 rc.2) s (cellsOf h w).
Proof.
  unfold cellsOf. generalize (seq 0 h) as rs. generalize (seq 0 w) as cs.
  intros cs rs. revert s. induction rs as [|r rs IH]; intros s; [done|].
  cbn [foldlM]. change ((r :: rs) ≫= _) with
    ((cs ≫= λ c, [(r, c)]) ++ (rs ≫= λ r, cs ≫= λ c, [(r, c)])).
  rewrite foldlM_app.
  assert (∀ s, foldlM (λ s c, f s r c) s cs
               = foldlM (λ s rc, f s rc.1 rc.2) s (cs ≫= λ c, [(r, c)])) as ->.
  { clear. induction cs as [|c cs IH]; intros s; [done|].
    cbn. destruct (f s r c); cbn; [apply IH|done]. }
  destruct (foldlM _ s (cs ≫= _)); cbn; [apply IH|done].
Qed.

Lemma elem_of_cellsOf h w r c : (r, c) ∈ cellsOf h w ↔ r < h ∧ c < w.
Proof.
  unfold cellsOf. rewrite list_elem_of_bind. split.
  - intros (r' & (c' & Hrc & Hc)%list_elem_of_bind & Hr).
    apply list_elem_of_singleton in Hrc as [= -> ->].
    apply elem_of_seq in Hr, Hc. lia.
  - intros [Hr Hc]. exists r. split; [|apply elem_of_seq; lia].
    apply list_elem_of_bind. exists c. split; [by apply list_elem_of_singleton|].
    apply elem_of_seq. lia.
Qed.

(** ** Grids *)

Lemma dims_newGrid {A} this (v : A) : dims this (newGrid this v).
Proof.
  split; [apply length_replicate|].
  apply Forall_forall. intros row Hrow%elem_of_replicate_inv. subst.
  apply length_replicate.
Qed.

Lemma cellAt_newGrid {A} this (v : A) gy gx :
  gy < rows this → gx < cols this → cellAt (newGrid this v) gy gx = Some v.
Proof.
  intros Hy Hx. unfold cellAt, newGrid.
  rewrite lookup_replicate_2 by done. cbn. by apply lookup_replicate_2.
Qed.

Lemma dims_lookup {A} this (grid : list (list A)) gy :
  dims this grid → gy < rows this →
  ∃ row, grid !! gy = Some row ∧ length row = cols this.
Proof.
  intros [Hlen Hrows] Hy.
  destruct (lookup_lt_is_Some_2 grid gy) as [row Hrow]; [lia|].
  exists row. split; [done|]. by eapply Forall_lookup_1 in Hrows.
Qed.

Lemma dims_setCell {A} this (grid : list (list A)) gy gx v :
  dims this grid → dims this (setCell grid gy gx v).
Proof.
  intros [Hlen Hrows]. split.
  - unfold setCell. by rewrite length_alter.
  - unfold setCell. apply Forall_alter; [done|].
    intros row Hrow Hl. by rewrite length_insert.
Qed.

Lemma cellAt_setCell {A} this (grid : list (list A)) gy gx v i j :
  dims this grid → gy < rows this → gx < cols this →
  cellAt (setCell grid gy gx v) i j
  = if decide (i = gy ∧ j = gx) then Some v else cellAt grid i j.
Proof.
  intros Hd Hy Hx. destruct (dims_lookup this grid gy Hd Hy) as (row & Hrow & Hlen).
  unfold cellAt, setCell. destruct (decide (i = gy)) as [->|Hne].
  - rewrite list_lookup_alter_eq, Hrow. cbn.
    destruct (decide (j = gx)) as [->|Hne].
    + rewrite decide_True by done. apply list_lookup_insert_eq. lia.
    + rewrite decide_False by tauto. by rewrite list_lookup_insert_ne.
  - rewrite list_lookup_alter_ne by done. rewrite decide_False by tauto. done.
Qed.

(** ** [getOccupancyGridWithDefs] *)

Lemma inGrid_true this gx gy :
  inGrid this gx gy = true ↔
  (0 ≤ gy < Z.of_nat (rows this) ∧ 0 ≤ gx < Z.of_nat (cols this))%Z.
Proof. unfold inGrid. rewrite !andb_true_iff, !Z.leb_le, !Z.ltb_lt. lia. Qed.

Lemma occupied_shapeCell def r c :
  r < ItemDefinition.height def → c < ItemDefinition.width def →
  (shapeCell def r c = Normal true ↔ occupied def r c).
Proof. intros Hr Hc. rewrite shapeCell_true. unfold occupied. tauto. Qed.

(** Two nested loops over a shape that paint cells with [v]: when each
    visit [(r, c)] paints exactly the cells it hits, the loops paint exactly
    the cells some visit hits. *)
Lemma paint_loops {A} this (body : list (list A) → nat → nat → completion (list (list A)))
    (v : A) (hit : nat → nat → nat → nat → Prop) h w grid :
  dims this grid →
  (∀ g r c, dims this g → r < h → c < w →
     ∃ g', body g r c = Normal g' ∧ dims this g'
       ∧ ∀ i j, i < rows this → j < cols this →
           (hit i j r c ∧ cellAt g' i j = Some v)
           ∨ (¬ hit i j r c ∧ cellAt g' i j = cellAt g i j)) →
  ∃ grid',
    foldlM (λ g r, foldlM (λ g c, body g r c) g (seq 0 w)) grid (seq 0 h) = Normal grid'
    ∧ dims this grid'
    ∧ ∀ i j, i < rows this → j < cols this →
        (cellAt grid' i j = Some v ∧ ∃ r c, r < h ∧ c < w ∧ hit i j r c)
        ∨ (cellAt grid' i j = cellAt grid i j ∧ ∀ r c, r < h → c < w → ¬ hit i j r c).
Proof.
  intros Hdims Hbody. rewrite (foldlM_nested body).
  destruct (foldlM_invariant (λ g (rc : nat * nat), body g rc.1 rc.2)
    (λ visited g, dims this g ∧ ∀ i j, i < rows this → j < cols this →
       (cellAt g i j = Some v ∧ ∃ r c, (r, c) ∈ visited ∧ r < h ∧ c < w ∧ hit i j r c)
       ∨ (cellAt g i j = cellAt grid i j ∧ ∀ r c, (r, c) ∈ visited → ¬ hit i j r c))
    (cellsOf h w) grid) as (grid' & Hrun & Hd' & Hcells).
  - split; [done|]. intros i j Hi Hj. right. split; [done|].
    intros r c Hin. by apply elem_of_nil in Hin.
  - intros visited [r c] g [Hd IH] [Hr Hc]%elem_of_cellsOf. cbn [fst snd].
    destruct (Hbody g r c Hd Hr Hc) as (g' & Hrun & Hd' & Hstep).
    exists g'. split; [done|]. split; [done|]. intros i j Hi Hj.
    destruct (Hstep i j Hi Hj) as [[Hh Hcell]|[Hh Hcell]].
    + left. split; [done|]. exists r, c. split_and!; [|done..].
      apply elem_of_app. right. apply list_elem_of_here.
    + rewrite Hcell.
      destruct (IH i j Hi Hj) as [[Hold (r0 & c0 & Hin & Hrest)]|[Hold Hnone]].
      * left. split; [done|]. exists r0, c0. split; [|done]. apply elem_of_app. by left.
      * right. split; [done|].
        intros r0 c0 [Hin|Hin%list_elem_of_singleton]%elem_of_app; [by apply Hnone|].
        by simplify_eq.
  - exists grid'. split; [done|]. split; [done|]. intros i j Hi Hj.
    destruct (Hcells i j Hi Hj) as [[Hcell (r & c & _ & Hrest)]|[Hcell Hnone]].
    + left. split; [done|]. by exists r, c.
    + right. split; [done|]. intros r c Hr Hc. apply Hnone. by apply elem_of_cellsOf.
Qed.

(** What the loops over one shape do to the grid: the in-grid cells the
    translated shape occupies receive the instance id, the others are kept. *)
Lemma stamp_spec this item def grid :
  ItemDefinition.height def ≤ length (ItemDefinition.shape def) →
  dims this grid →
  ∃ grid', stamp this item def grid = Normal grid' ∧ dims this grid'
    ∧ ∀ i j, i < rows this → j < cols this →
        (cellAt grid' i j = Some (Some (PlacedItem.instanceId item))
         ∧ occupiesAt def (PlacedItem.x item) (PlacedItem.y item) (Z.of_nat j) (Z.of_nat i))
        ∨ (cellAt grid' i j = cellAt grid i j
           ∧ ¬ occupiesAt def (PlacedItem.x item) (PlacedItem.y item) (Z.of_nat j) (Z.of_nat i)).
Proof.
  intros Hrows Hdims. unfold stamp.
  destruct (paint_loops this (stampCell this item def) (Some (PlacedItem.instanceId item))
    (λ i j r c, occupied def r c
                ∧ Z.of_nat j = (PlacedItem.x item + Z.of_nat c)%Z
                ∧ Z.of_nat i = (PlacedItem.y item + Z.of_nat r)%Z)
    (ItemDefinition.height def) (ItemDefinition.width def) grid Hdims)
    as (grid' & Hrun & Hd' & Hcells).
  - intros g r c Hd Hr Hc. unfold stampCell.
    destruct (shapeCell_total def r c) as [occ Hocc]; [lia|]. rewrite Hocc. cbn.
    assert (occ = true ↔ occupied def r c) as Hiff.
    { rewrite <- occupied_shapeCell by done. rewrite Hocc. split; congruence. }
    set (gx := (PlacedItem.x item + Z.of_nat c)%Z).
    set (gy := (PlacedItem.y item + Z.of_nat r)%Z).
    destruct occ; [destruct (inGrid this gx gy) eqn:Hin|].
    + apply inGrid_true in Hin. eexists. split; [done|]. split; [by apply dims_setCell|].
      intros i j Hi Hj. rewrite (cellAt_setCell this) by (done || lia).
      destruct (decide (i = Z.to_nat gy ∧ j = Z.to_nat gx)) as [[-> ->]|Hne].
      * left. split; [|done]. split; [by apply Hiff|]. lia.
      * right. split; [|done]. intros (_ & Hx & Hy). apply Hne. lia.
    + exists g. split; [done|]. split; [done|]. intros i j Hi Hj. right. split; [|done].
      intros (_ & Hx & Hy).
      assert (inGrid this gx gy = true) as Htrue by (apply inGrid_true; lia).
      congruence.
    + exists g. split; [done|]. split; [done|]. intros i j Hi Hj. right. split; [|done].
      intros [Ho _]. apply Hiff in Ho. done.
  - exists grid'. split; [done|]. split; [done|]. intros i j Hi Hj.
    destruct (Hcells i j Hi Hj) as [[Hcell (r & c & _ & _ & Hh)]|[Hcell Hnone]].
    + left. split; [done|]. exists r, c. apply Hh.
    + right. split; [done|]. intros (r & c & Hocc & Hx & Hy).
      destruct Hocc as (Hr & Hc & Hrow). by apply (Hnone r c Hr Hc).
Qed.

Lemma owner_snoc_stamps defs ignore visited item gx gy :
  stamps defs ignore item gx gy →
  owner defs ignore (visited ++ [item]) gx gy (Some (PlacedItem.instanceId item)).
Proof. intros Hs. exists visited, item, []. by split_and!. Qed.

Lemma owner_snoc_skip defs ignore visited item gx gy cell :
  ¬ stamps defs ignore item gx gy →
  owner defs ignore visited gx gy cell →
  owner defs ignore (visited ++ [item]) gx gy cell.
Proof.
  intros Hs. destruct cell as [id|]; cbn.
  - intros (before & item' & after & -> & Hid & Hst & Hafter).
    exists before, item', (after ++ [item]). split_and!; [|done..|].
    + by rewrite <- app_assoc.
    + apply Forall_app. split; [done|]. by constructor.
  - intros Hall. apply Forall_app. split; [done|]. by constructor.
Qed.

(** The content of a cell is determined by [owner]. *)
Lemma owner_functional defs ignore items gx gy cell1 cell2 :
  owner defs ignore items gx gy cell1 → owner defs ignore items gx gy cell2 →
  cell1 = cell2.
Proof.
  revert cell1 cell2.
  assert (∀ id, owner defs ignore items gx gy (Some id) →
                ¬ owner defs ignore items gx gy None) as Hexcl.
  { intros id (before & item & after & -> & _ & Hst & _) Hnone.
    apply Forall_app in Hnone as [_ Hnone]. by inversion Hnone. }
  intros [id1|] [id2|] H1 H2; [|by destruct (Hexcl id1)|by destruct (Hexcl id2)|done].
  destruct H1 as (b1 & i1 & a1 & -> & <- & Hs1 & Ha1).
  destruct H2 as (b2 & i2 & a2 & Heq & <- & Hs2 & Ha2).
  clear Hexcl. revert b2 Heq.
  induction b1 as [|z b1 IH]; intros [|z2 b2] Heq; simplify_eq/=.
  - done.
  - apply Forall_app in Ha1 as [_ Ha1]. by inversion Ha1.
  - apply Forall_app in Ha2 as [_ Ha2]. by inversion Ha2.
  - by eapply IH.
Qed.

Lemma getOccupancyGridWithDefs_spec this defs ignore :
  wellFormedCatalog defs →
  ∃ grid, getOccupancyGridWithDefs this defs ignore = Normal grid
    ∧ dims this grid
    ∧ ∀ gy gx, gy < rows this → gx < cols this →
        ∃ cell, cellAt grid gy gx = Some cell
                ∧ owner defs ignore (items this) (Z.of_nat gx) (Z.of_nat gy) cell.
Proof.
  intros Hwf. unfold getOccupancyGridWithDefs.
  apply (foldlM_invariant _
    (λ visited g, dims this g ∧ ∀ gy gx, gy < rows this → gx < cols this →
       ∃ cell, cellAt g gy gx = Some cell
               ∧ owner defs ignore visited (Z.of_nat gx) (Z.of_nat gy) cell)).
  - split; [apply dims_newGrid|]. intros gy gx Hy Hx. exists None.
    split; [by apply cellAt_newGrid|]. constructor.
  - intros visited item g [Hd IH] _.
    destruct (bool_decide _) eqn:Hig.
    { apply bool_decide_eq_true_1 in Hig. exists g. split; [done|]. split; [done|].
      intros gy gx Hy Hx. destruct (IH gy gx Hy Hx) as (cell & Hcell & Hown).
      exists cell. split; [done|]. apply owner_snoc_skip; [|done]. by intros [? _]. }
    apply bool_decide_eq_false_1 in Hig.
    destruct (defs !! PlacedItem.defId item) as [def|] eqn:Hdef.
    + destruct (stamp_spec this item def g) as (g' & Hrun & Hd' & Hcells);
        [apply wellFormed_rows; by eapply Hwf|done|].
      exists g'. split; [done|]. split; [done|].
      intros gy gx Hy Hx. destruct (Hcells gy gx Hy Hx) as [[Hcell Hocc]|[Hcell Hocc]].
      * exists (Some (PlacedItem.instanceId item)). split; [done|].
        apply owner_snoc_stamps. split; [done|]. by exists def.
      * destruct (IH gy gx Hy Hx) as (cell & Hcell' & Hown).
        exists cell. split; [congruence|]. apply owner_snoc_skip; [|done].
        intros [_ (def' & Hdef' & Hocc')]. congruence.
    + exists g. split; [done|]. split; [done|].
      intros gy gx Hy Hx. destruct (IH gy gx Hy Hx) as (cell & Hcell & Hown).
      exists cell. split; [done|]. apply owner_snoc_skip; [|done].
      intros [_ (def' & Hdef' & _)]. congruence.
Qed.

Lemma ITEM_DEFINITIONS_wellFormed : wellFormedCatalog ITEM_DEFINITIONS.
Proof.
  unfold wellFormedCatalog, ITEM_DEFINITIONS. cbn [list_to_map foldr fst snd].
  repeat apply map_Forall_insert_2; [..|apply map_Forall_empty];
    (split; [reflexivity|repeat constructor]).
Qed.

(** C5. For a catalog of well-formed shapes, [getOccupancyGridWithDefs]
    completes normally, whatever the item list, the positions and the ignore
    argument are, with a [rows] x [cols] matrix.  Its cell [(gx, gy)] holds
    the instance id of the last item in list order that is not ignored, has a
    known type and has an occupied shape cell [(r, c)] with [gx = x + c] and
    [gy = y + r]; it holds [null] exactly when there is no such item
    (occupied cells outside the grid are dropped).  The boots at (0,0) on
    the 8 x 8 grid mark the cells (0,0), (1,0) and (0,1) and leave (1,1). *)
Theorem getOccupancyGridWithDefs_owner this defs ignore :
  wellFormedCatalog defs →
  (∃ grid, getOccupancyGridWithDefs this defs ignore = Normal grid
     ∧ length grid = rows this
     ∧ Forall (λ row, length row = cols this) grid
     ∧ ∀ gy gx, gy < rows this → gx < cols this →
         ∃ cell, cellAt grid gy gx = Some cell
           ∧ owner defs ignore (items this) (Z.of_nat gx) (Z.of_nat gy) cell
           ∧ ∀ cell', owner defs ignore (items this) (Z.of_nat gx) (Z.of_nat gy) cell'
                      → cell' = cell)
  ∧ getOccupancyGridWithDefs oneBoots ITEM_DEFINITIONS None
    = Normal ([Some "b1"; Some "b1"; None; None; None; None; None; None]
              :: [Some "b1"; None; None; None; None; None; None; None]
              :: replicate 6 (replicate 8 None)).
Proof.
  intros Hwf. split; [|reflexivity].
  destruct (getOccupancyGridWithDefs_spec this defs ignore Hwf)
    as (grid & Hrun & [Hlen Hrows] & Hcells).
  exists grid. split_and!; [done..|].
  intros gy gx Hy Hx. destruct (Hcells gy gx Hy Hx) as (cell & Hcell & Hown).
  exists cell. split_and!; [done..|].
  intros cell' Hown'. by eapply owner_functional.
Qed.

Lemma getOccupancyGridWithDefs_owner_witness :
  ∃ grid, getOccupancyGridWithDefs oneBoots ITEM_DEFINITIONS None = Normal grid
          ∧ length grid = rows oneBoots.
Proof.
  destruct (getOccupancyGridWithDefs_owner oneBoots ITEM_DEFINITIONS None
              ITEM_DEFINITIONS_wellFormed)
    as [(grid & Hrun & Hlen & _) _].
  exists grid. split; [exact Hrun|exact Hlen].
Defined.

(** ** The sort of [organize] *)

Section Sort.
Variable defs : Catalog.

Lemma compareArea_known a b :
  is_Some (defs !! PlacedItem.defId a) → is_Some (defs !! PlacedItem.defId b) →
  compareArea defs a b = Normal (areaOf defs b - areaOf defs a)%Z.
Proof. intros [da Ha] [db Hb]. unfold compareArea, areaOf. by rewrite Ha, Hb. Qed.

Lemma insertBy_perm {A} (cmp : A → A → completion Z) a l l' :
  insertBy cmp a l = Normal l' → Permutation (a :: l) l'.
Proof.
  revert l'. induction l as [|b l IH]; intros l' Hrun; cbn in Hrun.
  - by injection Hrun as <-.
  - destruct (cmp a b) as [v|]; [|done]. cbn in Hrun.
    destruct (v <=? 0)%Z; [by injection Hrun as <-|].
    destruct (insertBy cmp a l) as [l''|]; [|done]. cbn in Hrun.
    injection Hrun as <-. rewrite perm_swap. constructor. by apply IH.
Qed.

Lemma sortBy_perm {A} (cmp : A → A → completion Z) l l' :
  sortBy cmp l = Normal l' → Permutation l l'.
Proof.
  revert l'. induction l as [|a l IH]; intros l' Hrun; cbn in Hrun.
  - by injection Hrun as <-.
  - destruct (sortBy cmp l) as [s|]; [|done]. cbn in Hrun.
    apply insertBy_perm in Hrun. rewrite <- Hrun. constructor. by apply IH.
Qed.

Lemma insertBy_spec a l :
  covering defs (a :: l) →
  ∃ l', insertBy (compareArea defs) a l = Normal l'
    ∧ (descending defs l → descending defs l')
    ∧ sameOrderPerArea defs (a :: l) l'.
Proof.
  induction l as [|b l IH]; intros Hcov.
  - exists [a]. split; [done|]. split; [|done]. intros _. repeat constructor.
  - apply Forall_cons in Hcov as [Ha Hcov]. pose proof Hcov as [Hb Hl]%Forall_cons.
    cbn. rewrite compareArea_known by done. cbn.
    destruct (Z.leb_spec (areaOf defs b - areaOf defs a) 0) as [Hle|Hgt].
    + exists (a :: b :: l). split; [done|]. split; [|done].
      intros Hsorted. constructor; [done|].
      constructor; [lia|]. apply StronglySorted_inv in Hsorted as [_ Hall].
      eapply Forall_impl; [exact Hall|]. intros c Hc. cbn in Hc. lia.
    + destruct IH as (l' & Hrun & Hsort & Hstable); [by constructor|].
      rewrite Hrun. cbn. exists (b :: l'). split; [done|]. split.
      * intros [Hsorted Hall]%StronglySorted_inv. constructor; [by apply Hsort|].
        apply insertBy_perm in Hrun. rewrite <- Hrun. constructor; [lia|done].
      * intros k. specialize (Hstable k).
        rewrite (filter_cons _ b l'), Hstable, !(filter_cons _ a), (filter_cons _ b l).
        destruct (decide (areaOf defs a = k)), (decide (areaOf defs b = k)); (done || lia).
Qed.

(** With every item type known the comparator never throws, and the sort
    returns the stable arrangement by descending area. *)
Lemma sortBy_spec l :
  covering defs l →
  ∃ l', sortBy (compareArea defs) l = Normal l'
    ∧ Permutation l l' ∧ descending defs l' ∧ sameOrderPerArea defs l l'.
Proof.
  induction l as [|a l IH]; intros Hcov.
  - exists []. split_and!; [done..|constructor|done].
  - pose proof Hcov as [Ha Hl]%Forall_cons.
    destruct (IH Hl) as (s & Hrun & Hperm & Hsorted & Hstable).
    destruct (insertBy_spec a s) as (l' & Hins & Hsort' & Hstable').
    { constructor; [done|]. unfold covering. by rewrite <- Hperm. }
    exists l'. cbn. rewrite Hrun. cbn. split_and!; [done| |by apply Hsort'|].
    + apply insertBy_perm in Hins. rewrite <- Hins. by constructor.
    + intros k. rewrite (Hstable' k), !(filter_cons _ a), (Hstable k). done.
Qed.
End Sort.

(** ** The scan of [organize] *)

Lemma forallM_app {A} (body : A → completion bool) l1 l2 :
  forallM body (l1 ++ l2)
  = b ← forallM body l1; if b : bool then forallM body l2 else Normal false.
Proof.
  induction l1 as [|a l1 IH]; [done|].
  cbn. destruct (body a) as [[|]|]; cbn; [apply IH|done..].
Qed.

Lemma forallM_nested (f : nat → nat → completion bool) h w :
  forallM (λ r, forallM (λ c, f r c) (seq 0 w)) (seq 0 h)
  = forallM (λ rc, f rc.1 rc.2) (cellsOf h w).
Proof.
  unfold cellsOf. generalize (seq 0 h) as rs. generalize (seq 0 w) as cs.
  intros cs rs. induction rs as [|r rs IH]; [done|].
  cbn [forallM]. change ((r :: rs) ≫= _) with
    ((cs ≫= λ c, [(r, c)]) ++ (rs ≫= λ r, cs ≫= λ c, [(r, c)])).
  rewrite forallM_app.
  assert (forallM (λ c, f r c) cs
          = forallM (λ rc, f rc.1 rc.2) (cs ≫= λ c, [(r, c)])) as ->.
  { clear. induction cs as [|c cs IH]; [done|].
    cbn. destruct (f r c) as [[|]|]; cbn; [apply IH|done..]. }
  destruct (forallM _ (cs ≫= _)) as [[|]|]; cbn; [apply IH|done..].
Qed.

(** The outcome of a scan whose bodies all complete normally: it stops at the
    first element that produces something, or produces nothing at all. *)
Lemma firstM_total {A B} (body : A → completion (option B)) (l : list A) :
  (∀ a, a ∈ l → ∃ o, body a = Normal o) →
  (∃ visited a rest b,
      l = visited ++ a :: rest ∧ firstM body l = Normal (Some b)
      ∧ body a = Normal (Some b) ∧ ∀ a', a' ∈ visited → body a' = Normal None)
  ∨ (firstM body l = Normal None ∧ ∀ a, a ∈ l → body a = Normal None).
Proof.
  induction l as [|a l IH]; intros Hall.
  - right. split; [done|]. intros a Ha. by apply elem_of_nil in Ha.
  - destruct (Hall a) as [[b|] Ha]; [left|..].
    + left. exists [], a, l, b. cbn. rewrite Ha. split_and!; [done..|].
      intros a' Ha'. by apply elem_of_nil in Ha'.
    + destruct IH as [(visited & a0 & rest & b & -> & Hrun & Hb & Hnone)|[Hrun Hnone]].
      { intros a' Ha'. apply Hall. by right. }
      * left. exists (a :: visited), a0, rest, b. cbn. rewrite Ha. cbn.
        split_and!; [done..|]. intros a' [->|Ha']%elem_of_cons; auto.
      * right. cbn. rewrite Ha. cbn. split; [done|].
        intros a' [->|Ha']%elem_of_cons; auto.
Qed.

Lemma elem_of_upto (n m i : nat) :
  i ∈ upto (Z.of_nat n - Z.of_nat m) ↔ i + m ≤ n.
Proof. unfold upto. rewrite elem_of_seq. lia. Qed.

Lemma seq_split start n visited (a : nat) rest :
  seq start n = visited ++ a :: rest → ∀ i, i ∈ visited ↔ start ≤ i < a.
Proof.
  revert start n. induction visited as [|v visited IH]; intros start n Heq i.
  - destruct n as [|n]; [done|]. cbn in Heq. injection Heq as Hs _.
    rewrite elem_of_nil. lia.
  - destruct n as [|n]; [done|]. cbn in Heq. injection Heq as Hs Heq.
    rewrite elem_of_cons, (IH _ _ Heq).
    assert (a ∈ seq (S start) n) as Ha%elem_of_seq.
    { rewrite Heq. apply elem_of_app. right. apply list_elem_of_here. }
    lia.
Qed.

Lemma upto_split (k : Z) visited (a : nat) rest :
  upto k = visited ++ a :: rest → ∀ i, i ∈ visited ↔ i < a.
Proof. intros Heq i. rewrite (seq_split _ _ _ _ _ Heq). lia. Qed.

(** The per-cell test of the collision check. *)
Lemma fitsCell_spec this def grid x y r c :
  ItemDefinition.height def ≤ length (ItemDefinition.shape def) →
  dims this grid →
  r < ItemDefinition.height def → c < ItemDefinition.width def →
  y + r < rows this → x + c < cols this →
  ∃ b, fitsCell grid def x y r c = Normal b
       ∧ (b = true ↔ (occupied def r c → cellAt grid (y + r) (x + c) = Some false)).
Proof.
  intros Hrows Hd Hr Hc Hy Hx. unfold fitsCell.
  destruct (shapeCell_total def r c) as [occ Hocc]; [lia|]. rewrite Hocc. cbn.
  assert (occ = true ↔ occupied def r c) as Hiff.
  { rewrite <- occupied_shapeCell by done. rewrite Hocc. split; congruence. }
  destruct (dims_lookup this grid (y + r) Hd Hy) as (row & Hrow & Hlen).
  destruct (lookup_lt_is_Some_2 row (x + c)) as [taken Htaken]; [lia|].
  unfold tempCell, cellAt. rewrite Hrow. cbn. rewrite Htaken. cbn.
  destruct occ.
  - exists (negb taken). split; [done|]. destruct taken; cbn; split; try done.
    + intros H. specialize (H (proj1 Hiff eq_refl)). congruence.
  - exists true. split; [done|]. split; [|done]. intros _ Ho. apply Hiff in Ho. done.
Qed.

Lemma fitsAt_spec this def grid x y :
  ItemDefinition.height def ≤ length (ItemDefinition.shape def) →
  dims this grid →
  x + ItemDefinition.width def ≤ cols this →
  y + ItemDefinition.height def ≤ rows this →
  ∃ b, fitsAt grid def x y = Normal b
       ∧ (b = true ↔ ∀ r c, occupied def r c → cellAt grid (y + r) (x + c) = Some false).
Proof.
  intros Hrows Hd Hx Hy. unfold fitsAt. rewrite (forallM_nested (fitsCell grid def x y)).
  destruct (forallM_total (λ rc : nat * nat, fitsCell grid def x y rc.1 rc.2)
    (cellsOf (ItemDefinition.height def) (ItemDefinition.width def)))
    as (b & Hrun & Hiff).
  { intros [r c] [Hr Hc]%elem_of_cellsOf.
    destruct (fitsCell_spec this def grid x y r c) as (b & Hb & _); try done; try lia.
    by exists b. }
  exists b. split; [done|]. rewrite Hiff. split.
  - intros Hall r c Hocc. pose proof Hocc as (Hr & Hc & _).
    destruct (fitsCell_spec this def grid x y r c) as (b' & Hb & Hb'); try done; try lia.
    apply Hb'; [|done]. specialize (Hall (r, c)). cbn in Hall.
    rewrite Hall in Hb; [congruence|]. by apply elem_of_cellsOf.
  - intros Hall [r c] [Hr Hc]%elem_of_cellsOf. cbn.
    destruct (fitsCell_spec this def grid x y r c) as (b' & Hb & Hb'); try done; try lia.
    rewrite Hb. f_equal. apply Hb'. apply Hall.
Qed.

Lemma tempMark_spec this grid i j :
  dims this grid → i < rows this → j < cols this →
  ∃ grid', tempMark grid i j = Normal grid' ∧ dims this grid'
    ∧ ∀ i' j', cellAt grid' i' j'
               = if decide (i' = i ∧ j' = j) then Some true else cellAt grid i' j'.
Proof.
  intros Hd Hi Hj. destruct (dims_lookup this grid i Hd Hi) as (row & Hrow & Hlen).
  unfold tempMark. rewrite Hrow. unfold arraySet. rewrite decide_True by lia.
  eexists. split; [done|]. destruct Hd as [Hl Hall]. split; [split|].
  - by rewrite length_insert.
  - apply Forall_insert; [done|]. by rewrite length_insert.
  - intros i' j'. unfold cellAt. destruct (decide (i' = i)) as [->|Hne].
    + rewrite list_lookup_insert_eq by lia. cbn.
      destruct (decide (j' = j)) as [->|Hne].
      * rewrite decide_True by done. apply list_lookup_insert_eq. lia.
      * rewrite decide_False by tauto. rewrite list_lookup_insert_ne by done.
        by rewrite Hrow.
    + rewrite list_lookup_insert_ne by done. by rewrite decide_False by tauto.
Qed.

(** Marking a shape at an in-grid position sets exactly its occupied cells. *)
Lemma markShape_spec this def grid x y :
  ItemDefinition.height def ≤ length (ItemDefinition.shape def) →
  dims this grid →
  x + ItemDefinition.width def ≤ cols this →
  y + ItemDefinition.height def ≤ rows this →
  ∃ grid', markShape grid def x y = Normal grid' ∧ dims this grid'
    ∧ ∀ i j, i < rows this → j < cols this →
        (cellAt grid' i j = Some true
         ∧ occupiesAt def (Z.of_nat x) (Z.of_nat y) (Z.of_nat j) (Z.of_nat i))
        ∨ (cellAt grid' i j = cellAt grid i j
           ∧ ¬ occupiesAt def (Z.of_nat x) (Z.of_nat y) (Z.of_nat j) (Z.of_nat i)).
Proof.
  intros Hrows Hdims Hx Hy. unfold markShape.
  destruct (paint_loops this (λ g, markCell g def x y) true
    (λ i j r c, occupied def r c ∧ j = x + c ∧ i = y + r)
    (ItemDefinition.height def) (ItemDefinition.width def) grid Hdims)
    as (grid' & Hrun & Hd' & Hcells).
  - intros g r c Hd Hr Hc. unfold markCell.
    destruct (shapeCell_total def r c) as [occ Hocc]; [lia|]. rewrite Hocc. cbn.
    assert (occ = true ↔ occupied def r c) as Hiff.
    { rewrite <- occupied_shapeCell by done. rewrite Hocc. split; congruence. }
    destruct occ.
    + destruct (tempMark_spec this g (y + r) (x + c)) as (g' & Hrun & Hd' & Hcell);
        [done|lia..|].
      exists g'. split; [done|]. split; [done|]. intros i j Hi Hj. rewrite Hcell.
      destruct (decide (i = y + r ∧ j = x + c)) as [[-> ->]|Hne].
      * left. split; [|done]. split; [by apply Hiff|done].
      * right. split; [|done]. intros (_ & -> & ->). by apply Hne.
    + exists g. split; [done|]. split; [done|]. intros i j Hi Hj. right. split; [|done].
      intros [Ho _]. apply Hiff in Ho. done.
  - exists grid'. split; [done|]. split; [done|]. intros i j Hi Hj.
    destruct (Hcells i j Hi Hj) as [[Hcell (r & c & _ & _ & Ho & -> & ->)]|[Hcell Hnone]].
    + left. split; [done|]. exists r, c. split; [done|]. lia.
    + right. split; [done|]. intros (r & c & Hocc & Hgx & Hgy).
      destruct Hocc as (Hr & Hc & Hrow). apply (Hnone r c Hr Hc).
      split; [done|]. lia.
Qed.

(** ** The loop of [organize] *)

Section Organize.
Variable this : BackpackSystem.t.
Variable defs : Catalog.

Lemma packed_init : packed this defs ([], newGrid this false).
Proof.
  split; [apply dims_newGrid|]. intros i j Hi Hj. right.
  split; [by apply cellAt_newGrid|]. intros p Hp. by apply elem_of_nil in Hp.
Qed.

(** Under the invariant, the cells read by the collision test are free
    exactly when the position is feasible. *)
Lemma feasible_free st def x y :
  packed this defs st →
  x + ItemDefinition.width def ≤ cols this →
  y + ItemDefinition.height def ≤ rows this →
  feasible this defs st.1 def x y
  ↔ ∀ r c, occupied def r c → cellAt st.2 (y + r) (x + c) = Some false.
Proof.
  intros [_ Hcells] Hx Hy. split.
  - intros (_ & _ & Hfree) r c Hocc. pose proof Hocc as (Hr & Hc & _).
    destruct (Hcells (y + r) (x + c)) as [[_ (p & Hp & Hcov)]|[Hcell _]]; [lia..| |done].
    destruct (Hfree (Z.of_nat (x + c)) (Z.of_nat (y + r))) with p; [|done..].
    exists r, c. split; [done|]. lia.
  - intros Hfree. split_and!; [done..|].
    intros gx gy (r & c & Hocc & -> & ->) p Hp Hcov.
    pose proof Hocc as (Hr & Hc & _).
    rewrite <- !Nat2Z.inj_add in Hcov.
    destruct (Hcells (y + r) (x + c)) as [[Hcell _]|[_ Hnone]]; [lia..| |].
    + rewrite (Hfree r c Hocc) in Hcell. done.
    + by apply (Hnone p).
Qed.

Lemma covers_withXY item def x y gx gy :
  defs !! PlacedItem.defId item = Some def →
  covers defs (PlacedItem.withXY item x y) gx gy ↔ occupiesAt def x y gx gy.
Proof.
  intros Hdef. unfold covers. cbn. split.
  - intros (def' & Hdef' & Hocc). by simplify_eq.
  - intros Hocc. by exists def.
Qed.

Lemma tryAt_spec st item def x y :
  packed this defs st →
  defs !! PlacedItem.defId item = Some def →
  wellFormed def →
  x + ItemDefinition.width def ≤ cols this →
  y + ItemDefinition.height def ≤ rows this →
  (∃ st', tryAt st item def x y = Normal (Some st')
          ∧ st'.1 = st.1 ++ [PlacedItem.withXY item (Z.of_nat x) (Z.of_nat y)]
          ∧ packed this defs st' ∧ feasible this defs st.1 def x y)
  ∨ (tryAt st item def x y = Normal None ∧ ¬ feasible this defs st.1 def x y).
Proof.
  intros Hpacked Hdef Hwf%wellFormed_rows Hx Hy. unfold tryAt.
  destruct (fitsAt_spec this def st.2 x y) as (fits & Hfits & Hiff);
    [done|apply Hpacked|done..|].
  rewrite Hfits. cbn. rewrite <- feasible_free in Hiff by done.
  destruct fits; [left|right; split; [done|]; intros Hf; apply Hiff in Hf; done].
  destruct (markShape_spec this def st.2 x y) as (grid' & Hmark & Hd' & Hcells);
    [done|apply Hpacked|done..|].
  rewrite Hmark. cbn. eexists. split; [done|]. split; [done|].
  split; [|by apply Hiff]. split; [done|]. cbn [fst snd].
  intros i j Hi Hj. destruct (Hcells i j Hi Hj) as [[Hcell Hocc]|[Hcell Hocc]].
  - left. split; [done|]. eexists. split.
    + apply elem_of_app. right. apply list_elem_of_here.
    + by apply (covers_withXY item def).
  - rewrite Hcell. destruct Hpacked as [_ Hold].
    destruct (Hold i j Hi Hj) as [[Hc (p & Hp & Hcov)]|[Hc Hnone]].
    + left. split; [done|]. exists p. split; [|done]. apply elem_of_app. by left.
    + right. split; [done|].
      intros p [Hp|Hp%list_elem_of_singleton]%elem_of_app; [by apply Hnone|].
      subst p. by rewrite (covers_withXY item def).
Qed.

(** One item of the queue: it is placed at its first feasible position, or
    left out when there is none; the invariant is kept. *)
Lemma placeItem_spec st item def :
  packed this defs st →
  defs !! PlacedItem.defId item = Some def →
  wellFormed def →
  ∃ st', placeItem this defs st item = Normal st' ∧ packed this defs st'
    ∧ ((∃ x y, firstFeasible this defs st.1 def x y
               ∧ st'.1 = st.1 ++ [PlacedItem.withXY item (Z.of_nat x) (Z.of_nat y)])
       ∨ ((∀ x y, ¬ feasible this defs st.1 def x y) ∧ st' = st)).
Proof.
  intros Hpacked Hdef Hwf. unfold placeItem. rewrite Hdef.
  set (xs := upto (Z.of_nat (cols this) - Z.of_nat (ItemDefinition.width def))).
  set (ys := upto (Z.of_nat (rows this) - Z.of_nat (ItemDefinition.height def))).
  assert (∀ y, y + ItemDefinition.height def ≤ rows this →
    (∃ x st', firstM (λ x, tryAt st item def x y) xs = Normal (Some st')
       ∧ feasible this defs st.1 def x y
       ∧ (∀ x', x' < x → ¬ feasible this defs st.1 def x' y)
       ∧ st'.1 = st.1 ++ [PlacedItem.withXY item (Z.of_nat x) (Z.of_nat y)]
       ∧ packed this defs st')
    ∨ (firstM (λ x, tryAt st item def x y) xs = Normal None
       ∧ ∀ x, ¬ feasible this defs st.1 def x y)) as Hrow.
  { intros y Hy.
    assert (∀ x, x ∈ xs →
      (∃ st', tryAt st item def x y = Normal (Some st')
         ∧ st'.1 = st.1 ++ [PlacedItem.withXY item (Z.of_nat x) (Z.of_nat y)]
         ∧ packed this defs st' ∧ feasible this defs st.1 def x y)
      ∨ (tryAt st item def x y = Normal None ∧ ¬ feasible this defs st.1 def x y)) as Htry.
    { intros x Hx%elem_of_upto. by apply tryAt_spec. }
    destruct (firstM_total (λ x, tryAt st item def x y) xs)
      as [(visited & x & rest & st' & Hsplit & Hrun & Hx & Hnone)|[Hrun Hnone]].
    { intros x Hx. destruct (Htry x Hx) as [(st' & -> & _)|[-> _]]; eauto. }
    - left. exists x, st'. split; [done|].
      assert (x ∈ xs) as Hin.
      { rewrite Hsplit. apply elem_of_app. right. apply list_elem_of_here. }
      destruct (Htry x Hin) as [(st'' & Hst & Hfst & Hp & Hf)|[Hst _]]; [|congruence].
      assert (st'' = st') as -> by congruence. split_and!; [done| |done..].
      intros x' Hx'. apply (upto_split _ _ _ _ Hsplit) in Hx'.
      assert (x' ∈ xs) as Hin'. { rewrite Hsplit. apply elem_of_app. by left. }
      destruct (Htry x' Hin') as [(st'' & Hst' & _)|[_ Hnf]]; [|done].
      rewrite (Hnone x' Hx') in Hst'. done.
    - right. split; [done|]. intros x.
      destruct (decide (x ∈ xs)) as [Hin|Hout].
      + destruct (Htry x Hin) as [(st'' & Hst' & _)|[_ Hnf]]; [|done].
        rewrite (Hnone x Hin) in Hst'. done.
      + intros (Hx & _). apply Hout. by apply elem_of_upto. }
  destruct (firstM_total (λ y, firstM (λ x, tryAt st item def x y) xs) ys)
    as [(visited & y & rest & st' & Hsplit & Hrun & Hy & Hnone)|[Hrun Hnone]].
  { intros y Hy%elem_of_upto.
    destruct (Hrow y Hy) as [(x & st' & -> & _)|[-> _]]; eauto. }
  - rewrite Hrun. cbn. exists st'. split; [done|].
    assert (y ∈ ys) as Hin.
    { rewrite Hsplit. apply elem_of_app. right. apply list_elem_of_here. }
    destruct (Hrow y) as [(x & st'' & Hst & Hf & Hleft & Hfst & Hp)|[Hst _]];
      [by apply elem_of_upto| |congruence].
    assert (st'' = st') as -> by congruence. split; [done|]. left.
    exists x, y. split; [|done]. split; [done|].
    intros x' y' [Hy'|[-> Hx']]; [|by apply Hleft].
    apply (upto_split _ _ _ _ Hsplit) in Hy'.
    assert (y' ∈ ys) as Hin'. { rewrite Hsplit. apply elem_of_app. by left. }
    destruct (Hrow y') as [(x0 & st0 & Hst0 & _)|[_ Hnf]]; [by apply elem_of_upto| |done].
    rewrite (Hnone y' Hy') in Hst0. done.
  - rewrite Hrun. cbn. exists st. split; [done|]. split; [done|]. right.
    split; [|done]. intros x y.
    destruct (decide (y ∈ ys)) as [Hin|Hout].
    + destruct (Hrow y) as [(x0 & st0 & Hst0 & _)|[_ Hnf]]; [by apply elem_of_upto| |done].
      rewrite (Hnone y Hin) in Hst0. done.
    + intros (_ & Hy & _). apply Hout. by apply elem_of_upto.
Qed.

(** The loop over the sorted items packs them first-fit. *)
Lemma placeItems_packs queue st :
  wellFormedCatalog defs → covering defs queue → packed this defs st →
  ∃ st', foldlM (placeItem this defs) st queue = Normal st'
         ∧ packs this defs st.1 queue st'.1.
Proof.
  intros Hwf. revert st. induction queue as [|item queue IH]; intros st Hcov Hpacked.
  - exists st. split; [done|]. constructor.
  - apply Forall_cons in Hcov as [[def Hdef] Hcov].
    destruct (placeItem_spec st item def Hpacked Hdef) as (st1 & Hstep & Hp1 & Hcase);
      [by eapply Hwf|].
    destruct (IH st1 Hcov Hp1) as (st' & Hrun & Hpacks).
    exists st'. cbn. rewrite Hstep. cbn. split; [done|].
    destruct Hcase as [(x & y & Hff & Hst1)|[Hnone ->]].
    + eapply packs_place; [done..|]. by rewrite <- Hst1.
    + by eapply packs_drop.
Qed.

(** [organize] sorts stably by descending area and then packs first-fit. *)
Lemma organize_packs :
  wellFormedCatalog defs → covering defs (items this) →
  ∃ sorted out,
    sortBy (compareArea defs) (items this) = Normal sorted
    ∧ Permutation (items this) sorted
    ∧ descending defs sorted
    ∧ sameOrderPerArea defs (items this) sorted
    ∧ organize this defs = Normal out
    ∧ packs this defs [] sorted out.
Proof.
  intros Hwf Hcov.
  destruct (sortBy_spec defs (items this) Hcov) as (sorted & Hsort & Hperm & Hdesc & Hstable).
  destruct (placeItems_packs sorted ([], newGrid this false) Hwf) as (st' & Hrun & Hpacks).
  { unfold covering. by rewrite <- Hperm. }
  { apply packed_init. }
  exists sorted, st'.1. unfold organize. rewrite Hsort. cbn. rewrite Hrun. done.
Qed.
End Organize.

(** ** Consequences of first-fit packing *)

Section Packs.
Variable this : BackpackSystem.t.
Variable defs : Catalog.

Lemma packs_length placed queue out :
  packs this defs placed queue out → length out ≤ length placed + length queue.
Proof.
  induction 1 as [placed|placed item def x y queue out _ _ _ IH
                 |placed item def queue out _ _ _ IH]; cbn.
  - lia.
  - rewrite length_app in IH. cbn in IH. lia.
  - lia.
Qed.

Lemma tidy_nil : tidy this defs [].
Proof.
  split.
  - intros p Hp. by apply elem_of_nil in Hp.
  - intros i j p q _ Hp. by rewrite lookup_nil in Hp.
Qed.

(** A feasible position keeps the placed items tidy. *)
Lemma tidy_snoc placed item def x y :
  defs !! PlacedItem.defId item = Some def →
  feasible this defs placed def x y →
  tidy this defs placed →
  tidy this defs (placed ++ [PlacedItem.withXY item (Z.of_nat x) (Z.of_nat y)]).
Proof.
  intros Hdef (Hx & Hy & Hfree) [Hbounds Hdisj].
  assert (∀ p gx gy, p ∈ placed →
            covers defs p gx gy →
            ¬ covers defs (PlacedItem.withXY item (Z.of_nat x) (Z.of_nat y)) gx gy)
    as Hnew.
  { intros p gx gy Hp Hcov Hcov'. apply (covers_withXY defs item def) in Hcov'; [|done].
    by apply (Hfree gx gy Hcov' p). }
  split.
  - intros p [Hp|Hp%list_elem_of_singleton]%elem_of_app; [by apply Hbounds|].
    subst p. exists def. split; [done|]. unfold inBounds. cbn. lia.
  - intros i j p q Hne Hi Hj gx gy [Hcp Hcq].
    apply lookup_snoc_Some in Hi as [[Hil Hi]|[-> <-]];
      apply lookup_snoc_Some in Hj as [[Hjl Hj]|[-> <-]].
    + by apply (Hdisj i j p q Hne Hi Hj gx gy).
    + apply (Hnew p gx gy); [|done..]. by eapply list_elem_of_lookup_2.
    + apply (Hnew q gx gy); [|done..]. by eapply list_elem_of_lookup_2.
    + done.
Qed.

Lemma packs_tidy placed queue out :
  packs this defs placed queue out → tidy this defs placed → tidy this defs out.
Proof.
  induction 1 as [placed|placed item def x y queue out Hdef [Hf _] _ IH
                 |placed item def queue out _ _ _ IH]; intros Htidy.
  - done.
  - apply IH. by apply tidy_snoc with def.
  - by apply IH.
Qed.
End Packs.

Lemma fourGems_covered : covering ITEM_DEFINITIONS (items fourGems).
Proof. repeat constructor; by exists gem. Qed.

(** C6. With every item type known and well-formed, [organize] first
    arranges the items by descending bounding-box area, items of equal area
    keeping their input order, and then takes them in that order: each item
    goes to the first feasible top-left position of the scan over [y] from 0
    to [rows - height] and, within a row, over [x] from 0 to [cols - width],
    and is left out when no position is feasible.  On the 2 x 2 grid the four
    gems queued as A, B, C, D end at (0,0), (1,0), (0,1) and (1,1). *)
Theorem organize_sorted_first_fit this defs :
  wellFormedCatalog defs → covering defs (items this) →
  (∃ sorted out,
     Permutation (items this) sorted
     ∧ descending defs sorted
     ∧ sameOrderPerArea defs (items this) sorted
     ∧ organize this defs = Normal out
     ∧ packs this defs [] sorted out)
  ∧ organize fourGems ITEM_DEFINITIONS
    = Normal [PlacedItem.mk "A" "gem" 0 0 0; PlacedItem.mk "B" "gem" 1 0 0;
              PlacedItem.mk "C" "gem" 0 1 0; PlacedItem.mk "D" "gem" 1 1 0].
Proof.
  intros Hwf Hcov. split; [|reflexivity].
  destruct (organize_packs this defs Hwf Hcov) as (sorted & out & _ & H).
  by exists sorted, out.
Qed.

Lemma organize_sorted_first_fit_witness :
  ∃ out, organize fourGems ITEM_DEFINITIONS = Normal out
         ∧ ∃ sorted, descending ITEM_DEFINITIONS sorted
                     ∧ packs fourGems ITEM_DEFINITIONS [] sorted out.
Proof.
  destruct (organize_sorted_first_fit fourGems ITEM_DEFINITIONS
              ITEM_DEFINITIONS_wellFormed fourGems_covered)
    as [(sorted & out & _ & Hdesc & _ & Hrun & Hpacks) _].
  exists out. split; [exact Hrun|]. exists sorted. split; [exact Hdesc|exact Hpacks].
Defined.

(** C7. With every item type known and well-formed, [organize] completes
    normally and returns at most as many items as it received; the footprint
    of every returned item lies within the grid, and no two returned items
    cover a common cell. *)
Theorem organize_count_bounds_disjoint this defs :
  wellFormedCatalog defs → covering defs (items this) →
  ∃ out, organize this defs = Normal out
    ∧ length out ≤ length (items this)
    ∧ (∀ p, p ∈ out →
         ∃ def, defs !! PlacedItem.defId p = Some def
                ∧ inBounds this def (PlacedItem.x p) (PlacedItem.y p))
    ∧ (∀ i j p q, i ≠ j → out !! i = Some p → out !! j = Some q →
         ∀ gx gy, ¬ (covers defs p gx gy ∧ covers defs q gx gy)).
Proof.
  intros Hwf Hcov.
  destruct (organize_packs this defs Hwf Hcov)
    as (sorted & out & _ & Hperm & _ & _ & Hrun & Hpacks).
  exists out. split; [done|]. split.
  - apply packs_length in Hpacks. cbn in Hpacks.
    by rewrite (Permutation_length Hperm).
  - apply packs_tidy in Hpacks; [|apply tidy_nil]. exact Hpacks.
Qed.

Lemma organize_count_bounds_disjoint_witness :
  ∃ out, organize fourGems ITEM_DEFINITIONS = Normal out
         ∧ length out ≤ length (items fourGems).
Proof.
  destruct (organize_count_bounds_disjoint fourGems ITEM_DEFINITIONS
              ITEM_DEFINITIONS_wellFormed fourGems_covered)
    as (out & Hrun & Hlen & _).
  exists out. split; [exact Hrun|exact Hlen].
Defined.

(** ** An unknown item type *)

Lemma placeItems_unknown this defs item queue st :
  item ∈ queue → defs !! PlacedItem.defId item = None →
  foldlM (placeItem this defs) st queue = TypeError.
Proof.
  intros Hin Hdef. revert st. induction queue as [|a queue IH]; intros st.
  - by apply elem_of_nil in Hin.
  - cbn. apply elem_of_cons in Hin as [<-|Hin].
    + unfold placeItem. by rewrite Hdef.
    + destruct (placeItem this defs st a); cbn; [by apply IH|done].
Qed.

(** [organize] throws as soon as one item has a type the catalog lacks. *)
Lemma organize_unknown this defs item :
  item ∈ items this → defs !! PlacedItem.defId item = None →
  organize this defs = TypeError.
Proof.
  intros Hin Hdef. unfold organize.
  destruct (sortBy _ _) as [sorted|] eqn:Hsort; [|done]. cbn.
  apply sortBy_perm in Hsort. rewrite (placeItems_unknown this defs item); [done| |done].
  by rewrite <- Hsort.
Qed.

(** C4. The type of [staleItem] is not in the catalog.  The occupancy
    resolver skips the item and returns the empty grid, and the validator
    does not read the item list; [organize] on the same list throws a
    [TypeError]. *)
Theorem organize_throws_on_unknown_type :
  ITEM_DEFINITIONS !! PlacedItem.defId staleItem = None
  ∧ getOccupancyGridWithDefs oneStale ITEM_DEFINITIONS None
    = Normal (replicate 8 (replicate 8 None))
  ∧ canPlaceItem oneStale gem 0 0 None = Normal true
  ∧ organize oneStale ITEM_DEFINITIONS = TypeError.
Proof.
  split_and!; [reflexivity..|].
  apply (organize_unknown oneStale ITEM_DEFINITIONS staleItem); [apply list_elem_of_here|reflexivity].
Qed.

(** ** [organize] on the store *)

Lemma firstM_sim {A B B'} (R : B → B' → Prop)
    (body : A → completion (option B)) (body' : A → completion (option B')) l o :
  (∀ a b, body a = Normal (Some b) → ∃ b', body' a = Normal (Some b') ∧ R b b') →
  (∀ a, body a = Normal None → body' a = Normal None) →
  firstM body l = Normal o →
  ∃ o', firstM body' l = Normal o' ∧ option_Forall2 R o o'.
Proof.
  intros Hsome Hnone. induction l as [|a l IH]; cbn; intros Hrun.
  - injection Hrun as <-. exists None. split; [done|constructor].
  - destruct (body a) as [[b|]|] eqn:Ha; cbn in Hrun; [| |done].
    + injection Hrun as <-. destruct (Hsome a b Ha) as (b' & -> & HR).
      exists (Some b'). split; [done|by constructor].
    + rewrite (Hnone a Ha). cbn. by apply IH.
Qed.

Lemma insertBy_sim {A B} (R : A → B → Prop) cmpA cmpB a b l l' s' :
  (∀ a b a' b', R a a' → R b b' → cmpA a b = cmpB a' b') →
  R a b → Forall2 R l l' →
  insertBy cmpB b l' = Normal s' →
  ∃ s, insertBy cmpA a l = Normal s ∧ Forall2 R s s'.
Proof.
  intros Hcmp Ha Hl. revert s'. induction Hl as [|c c' l l' Hc Hl IH]; intros s'; cbn.
  - intros [= <-]. exists [a]. split; [done|]. by repeat constructor.
  - rewrite (Hcmp a c b c') by done. destruct (cmpB b c') as [v|]; [|done]. cbn.
    destruct (v <=? 0)%Z.
    + intros [= <-]. eexists. split; [done|]. by repeat constructor.
    + destruct (insertBy cmpB b l') as [t'|]; [|done]. cbn. intros [= <-].
      destruct (IH t' eq_refl) as (t & -> & Ht). cbn.
      eexists. split; [done|]. by constructor.
Qed.

Lemma sortBy_sim {A B} (R : A → B → Prop) cmpA cmpB l l' s' :
  (∀ a b a' b', R a a' → R b b' → cmpA a b = cmpB a' b') →
  Forall2 R l l' →
  sortBy cmpB l' = Normal s' →
  ∃ s, sortBy cmpA l = Normal s ∧ Forall2 R s s'.
Proof.
  intros Hcmp Hl. revert s'. induction Hl as [|a b l l' Ha Hl IH]; intros s'; cbn.
  - intros [= <-]. by exists [].
  - destruct (sortBy cmpB l') as [t'|]; [|done]. cbn. intros Hins.
    destruct (IH t' eq_refl) as (t & -> & Ht). cbn.
    by eapply insertBy_sim.
Qed.

Lemma itemAt_grow σ o r item :
  Store.itemAt σ r item → Store.itemAt (σ ++ [o]) r item.
Proof. unfold Store.itemAt. intros H. by apply lookup_app_l_Some. Qed.

Lemma push_grow σ o array elems r :
  σ !! array = Some (Store.ArrayObj elems) →
  Store.push (σ ++ [o]) array r
  = Normal (<[array := Store.ArrayObj (elems ++ [r])]> (σ ++ [o])).
Proof.
  intros H. unfold Store.push, Store.readArray.
  by rewrite (lookup_app_l_Some _ _ _ _ H).
Qed.

Section StoreSim.
Variable this : Store.t.
Variable sys : BackpackSystem.t.
Variable defs : Catalog.
Variable σ0 : Store.store.
Variable newItems : Store.ref.
Hypothesis Hrows : Store.rows this = rows sys.
Hypothesis Hcols : Store.cols this = cols sys.

Lemma tryAt_sim st st' item def x y :
  mirrors σ0 newItems st st' →
  (∀ st1, tryAt st item def x y = Normal (Some st1) →
     ∃ st1', Store.tryAt newItems st' item def x y = Normal (Some st1')
             ∧ mirrors σ0 newItems st1 st1')
  ∧ (tryAt st item def x y = Normal None →
     Store.tryAt newItems st' item def x y = Normal None).
Proof.
  intros (Hgrid & Hnew & Hframe & refs & Harr & Hfresh & Hnodup & Hrefs).
  unfold tryAt, Store.tryAt. rewrite Hgrid.
  destruct (fitsAt st.2 def x y) as [[|]|]; cbn; [|done..].
  assert (newItems < length st'.1) as Hlt by (by eapply lookup_lt_Some).
  rewrite (push_grow _ _ _ _ _ Harr). cbn.
  destruct (markShape st.2 def x y) as [grid'|]; cbn; [|done].
  split; [|done]. intros st1 [= <-]. eexists. split; [done|].
  split; [done|]. split; [done|]. cbn [fst snd]. split.
  - intros r Hr. rewrite list_lookup_insert_ne by lia.
    rewrite lookup_app_l by (specialize (Hframe r Hr); lia). by apply Hframe.
  - exists (refs ++ [length st'.1]). split_and!.
    + apply list_lookup_insert_eq. rewrite length_app. lia.
    + apply Forall_app. split; [done|]. constructor; [lia|done].
    + apply NoDup_app. split_and!; [done| |apply NoDup_singleton].
      intros r Hr ->%list_elem_of_singleton.
      apply list_elem_of_lookup in Hr as [i Hi].
      destruct (Forall2_lookup_l _ _ _ _ _ Hrefs Hi) as (p & _ & Hp).
      apply lookup_lt_Some in Hp. lia.
    + apply Forall2_app.
      * eapply Forall2_impl; [exact Hrefs|]. intros r p Hr. unfold Store.itemAt in *.
        rewrite list_lookup_insert_ne by (intros <-; congruence).
        by apply lookup_app_l_Some.
      * constructor; [|done]. unfold Store.itemAt.
        rewrite list_lookup_insert_ne by lia. by rewrite list_lookup_middle.
Qed.

Lemma placeItem_sim st st' r item st1 :
  mirrors σ0 newItems st st' →
  Store.itemAt σ0 r item →
  placeItem sys defs st item = Normal st1 →
  ∃ st1', Store.placeItem this defs newItems st' r = Normal st1'
          ∧ mirrors σ0 newItems st1 st1'.
Proof.
  intros Hsim Hitem. unfold placeItem, Store.placeItem, Store.readItem.
  pose proof Hsim as (_ & _ & Hframe & _).
  rewrite Hframe, Hitem by (by eapply lookup_lt_Some). cbn.
  destruct (defs !! PlacedItem.defId item) as [def|]; [|done].
  rewrite Hrows, Hcols.
  destruct (firstM _ _) as [placed|] eqn:Hscan; [|done]. cbn. intros [= <-].
  eapply (firstM_sim (mirrors σ0 newItems)) in Hscan as (placed' & -> & Hplaced).
  - cbn. eexists. split; [done|]. by destruct Hplaced.
  - intros y b Hrow.
    eapply (firstM_sim (mirrors σ0 newItems)) in Hrow as (o' & Hrow' & Ho').
    + inversion Ho'; subst. eauto.
    + intros x b0. by apply tryAt_sim.
    + intros x. by apply tryAt_sim.
  - intros y Hrow.
    eapply (firstM_sim (mirrors σ0 newItems)) in Hrow as (o' & Hrow' & Ho').
    + inversion Ho'; subst. done.
    + intros x b0. by apply tryAt_sim.
    + intros x. by apply tryAt_sim.
Qed.

Lemma placeItems_sim refs queue st st' stf :
  Forall2 (Store.itemAt σ0) refs queue →
  mirrors σ0 newItems st st' →
  foldlM (placeItem sys defs) st queue = Normal stf →
  ∃ stf', foldlM (Store.placeItem this defs newItems) st' refs = Normal stf'
          ∧ mirrors σ0 newItems stf stf'.
Proof.
  intros Hq. revert st st'. induction Hq as [|r item refs queue Hr Hq IH];
    intros st st' Hsim; cbn.
  - intros [= <-]. eauto.
  - destruct (placeItem sys defs st item) as [st1|] eqn:Hstep; [|done]. cbn.
    destruct (placeItem_sim st st' r item st1 Hsim Hr Hstep) as (st1' & -> & Hsim1).
    cbn. by apply IH.
Qed.
End StoreSim.

Lemma packs_origin this defs placed queue out :
  packs this defs placed queue out →
  ∀ o, o ∈ out →
    o ∈ placed ∨ ∃ item x y, item ∈ queue ∧ o = PlacedItem.withXY item x y.
Proof.
  induction 1 as [placed|placed item def x y queue out _ _ _ IH
                 |placed item def queue out _ _ _ IH]; intros o Ho.
  - by left.
  - destruct (IH o Ho) as [[Hin|Hnew%list_elem_of_singleton]%elem_of_app
                          |(i & x' & y' & Hi & ->)].
    + by left.
    + right. eexists item, _, _. split; [left|done].
    + right. exists i, x', y'. split; [by right|done].
  - destruct (IH o Ho) as [Hin|(i & x' & y' & Hi & ->)]; [by left|].
    right. exists i, x', y'. split; [by right|done].
Qed.

Lemma denotes_frame σ σ' this sys :
  (∀ r, r < length σ → σ' !! r = σ !! r) →
  Store.denotes σ this sys → Store.denotes σ' this sys.
Proof.
  intros Hframe (Hr & Hc & elems & Harr & Hel). split_and!; [done..|].
  exists elems. split.
  - rewrite Hframe; [done|]. by eapply lookup_lt_Some.
  - eapply Forall2_impl; [exact Hel|]. intros r item Hitem. unfold Store.itemAt in *.
    rewrite Hframe; [done|]. by eapply lookup_lt_Some.
Qed.

Lemma fourGems_denoted : Store.denotes fourGemsStore fourGemsObject fourGems.
Proof.
  split_and!; [reflexivity..|]. exists [0; 1; 2; 3]. split; [reflexivity|].
  repeat constructor.
Qed.

(** C10. Let the object [this] denote the backpack [sys] in the store [σ],
    with every item type known and well-formed.  [organize] completes
    normally; every object of [σ], hence the stored item list and every
    input record, is the same afterwards; the returned array and the records
    it refers to are allocated by the call, one record per returned item;
    these records are the result of [organize] on values, and each of them
    agrees with an input item on [instanceId], [defId] and [rotation]. *)
Theorem organize_leaves_inputs_untouched this sys defs σ :
  Store.denotes σ this sys →
  wellFormedCatalog defs → covering defs (items sys) →
  ∃ newItems σ' refs out,
    Store.organize this defs σ = Normal (newItems, σ')
    ∧ organize sys defs = Normal out
    ∧ (∀ r, r < length σ → σ' !! r = σ !! r)
    ∧ Store.denotes σ' this sys
    ∧ length σ ≤ newItems
    ∧ σ' !! newItems = Some (Store.ArrayObj refs)
    ∧ Forall (λ r, length σ ≤ r) refs
    ∧ NoDup refs
    ∧ Forall2 (Store.itemAt σ') refs out
    ∧ Forall (λ o, ∃ item, item ∈ items sys
                 ∧ PlacedItem.instanceId o = PlacedItem.instanceId item
                 ∧ PlacedItem.defId o = PlacedItem.defId item
                 ∧ PlacedItem.rotation o = PlacedItem.rotation item) out.
Proof.
  intros Hden Hwf Hcov. pose proof Hden as (Hr & Hc & elems & Harr & Hel).
  destruct (organize_packs sys defs Hwf Hcov)
    as (sorted & out & Hsort & Hperm & _ & _ & Hrun & Hpacks).
  unfold organize in Hrun. rewrite Hsort in Hrun. cbn in Hrun.
  destruct (foldlM (placeItem sys defs) _ sorted) as [stf|] eqn:Hloop; [|done].
  cbn in Hrun. injection Hrun as <-.
  set (σ1 := σ ++ [Store.ArrayObj elems]).
  destruct (sortBy_sim (Store.itemAt σ) (Store.compareArea defs σ1) (compareArea defs)
              elems (items sys) sorted) as (sortedRefs & Hsort' & Hsorted); [|done..|].
  { intros a b ia ib Ha Hb. unfold Store.compareArea, Store.readItem, σ1.
    by rewrite (itemAt_grow _ _ _ _ Ha), (itemAt_grow _ _ _ _ Hb). }
  set (σ3 := <[length σ := Store.ArrayObj sortedRefs]> σ1 ++ [Store.ArrayObj []]).
  assert (length (<[length σ := Store.ArrayObj sortedRefs]> σ1) = S (length σ)) as Hlen.
  { rewrite length_insert. unfold σ1. rewrite length_app. cbn. lia. }
  assert (∀ r, r < length σ → σ3 !! r = σ !! r) as Hframe3.
  { intros r Hlt. unfold σ3. rewrite lookup_app_l by (rewrite Hlen; lia).
    rewrite list_lookup_insert_ne by lia. unfold σ1. by rewrite lookup_app_l. }
  destruct (placeItems_sim this sys defs σ (S (length σ)) Hr Hc sortedRefs sorted
              ([], newGrid sys false)
              (σ3, replicate (Store.rows this) (replicate (Store.cols this) false)) stf)
    as ([σ' grid'] & Hloop' & Hgrid & Hnew & Hframe & refs & Hout & Hfresh & Hnodup & Hrefs);
    [done| |done|].
  { split; [by rewrite Hr, Hc|]. split; [cbn; lia|]. split; [done|].
    exists []. split_and!; [|done|apply NoDup_nil_2|done]. cbn. unfold σ3.
    rewrite <- Hlen. apply list_lookup_middle. done. }
  cbn [fst snd] in *.
  exists (S (length σ)), σ', refs, stf.1. split_and!; try done.
  - unfold Store.organize, Store.readArray. rewrite Harr. cbn.
    fold σ1. rewrite Hsort'. cbn. rewrite Hlen. fold σ3. rewrite Hloop'. done.
  - unfold organize. rewrite Hsort. cbn. by rewrite Hloop.
  - by apply (denotes_frame σ).
  - apply Forall_forall. intros o Ho.
    destruct (packs_origin _ _ _ _ _ Hpacks o Ho) as [Hin|(item & x & y & Hin & ->)].
    + by apply elem_of_nil in Hin.
    + exists item. split; [by rewrite Hperm|done].
Qed.

Lemma organize_leaves_inputs_untouched_witness :
  ∃ newItems σ',
    Store.organize fourGemsObject ITEM_DEFINITIONS fourGemsStore = Normal (newItems, σ')
    ∧ ∀ r, r < length fourGemsStore → σ' !! r = fourGemsStore !! r.
Proof.
  destruct (organize_leaves_inputs_untouched fourGemsObject fourGems ITEM_DEFINITIONS
              fourGemsStore fourGems_denoted ITEM_DEFINITIONS_wellFormed fourGems_covered)
    as (newItems & σ' & _ & _ & Hrun & _ & Hframe & _).
  exists newItems, σ'. split; [exact Hrun|exact Hframe].
Defined.

(** * Further properties of the class *)

(** ** The occupancy grid and the item list *)

(** A loop whose body leaves the state alone on the elements outside [P] is
    the loop over the elements inside [P]. *)
Lemma foldlM_filter {A S} (P : A → Prop) `{!∀ a, Decision (P a)}
    (body body' : S → A → completion S) l s :
  (∀ s a, P a → body' s a = body s a) →
  (∀ s a, ¬ P a → body' s a = Normal s) →
  foldlM body s (filter P l) = foldlM body' s l.
Proof.
  intros Hin Hout. revert s. induction l as [|a l IH]; intros s; [done|].
  rewrite filter_cons. cbn. destruct (decide (P a)) as [Ha|Ha].
  - cbn. rewrite Hin by done. destruct (body s a); cbn; [apply IH|done].
  - rewrite Hout by done. cbn. apply IH.
Qed.

(** X1. Passing an instance id as [ignoreInstanceId] gives the grid of the
    item list without the items of that id, built without ignoring
    anything; this holds for every catalog, also when the build throws. *)
Theorem getOccupancyGridWithDefs_ignore_is_filter this defs id :
  getOccupancyGridWithDefs this defs (Some id)
  = getOccupancyGridWithDefs
      (BackpackSystem.mk (rows this) (cols this)
         (filter (λ item, PlacedItem.instanceId item ≠ id) (items this)))
      defs None.
Proof.
  unfold getOccupancyGridWithDefs. cbn [items]. symmetry.
  apply (foldlM_filter (λ item, PlacedItem.instanceId item ≠ id)).
  - intros g item Hne. rewrite !bool_decide_eq_false_2 by congruence. done.
  - intros g item Heq. apply dec_stable in Heq.
    rewrite bool_decide_eq_true_2 by congruence. done.
Qed.

(** X2. Items whose type is missing from the catalog can be removed from the
    list without changing the occupancy grid, whatever the ignore argument
    is. *)
Theorem getOccupancyGridWithDefs_unknown_removed this defs ignore :
  getOccupancyGridWithDefs this defs ignore
  = getOccupancyGridWithDefs
      (BackpackSystem.mk (rows this) (cols this)
         (filter (λ item, is_Some (defs !! PlacedItem.defId item)) (items this)))
      defs ignore.
Proof.
  unfold getOccupancyGridWithDefs. cbn [items]. symmetry.
  apply (foldlM_filter (λ item, is_Some (defs !! PlacedItem.defId item))).
  - done.
  - intros g item Hnone. apply eq_None_not_Some in Hnone. rewrite Hnone.
    by destruct (bool_decide _).
Qed.

(** Two grids of the dimensions of the backpack with the same cells are
    equal. *)
Lemma grid_ext {A} this (g1 g2 : list (list A)) :
  dims this g1 → dims this g2 →
  (∀ i j, i < rows this → j < cols this → cellAt g1 i j = cellAt g2 i j) →
  g1 = g2.
Proof.
  intros Hd1 Hd2 Hcells. apply list_eq. intros i.
  destruct (decide (i < rows this)) as [Hi|Hi].
  - destruct (dims_lookup this g1 i Hd1 Hi) as (r1 & Hr1 & Hl1).
    destruct (dims_lookup this g2 i Hd2 Hi) as (r2 & Hr2 & Hl2).
    rewrite Hr1, Hr2. f_equal. apply list_eq. intros j.
    destruct (decide (j < cols this)) as [Hj|Hj].
    + specialize (Hcells i j Hi Hj). unfold cellAt in Hcells.
      by rewrite Hr1, Hr2 in Hcells.
    + rewrite !lookup_ge_None_2 by lia. done.
  - destruct Hd1 as [Hl1 _], Hd2 as [Hl2 _]. rewrite !lookup_ge_None_2 by lia. done.
Qed.

(** Among non-overlapping items a covered cell has one owner: any item that
    stamps it. *)
Lemma owner_nonOverlapping defs ignore l gx gy cell p :
  nonOverlapping defs l →
  owner defs ignore l gx gy cell →
  p ∈ l → stamps defs ignore p gx gy →
  cell = Some (PlacedItem.instanceId p).
Proof.
  intros Hno Hown Hp Hst. destruct cell as [id|]; cbn in Hown.
  - destruct Hown as (before & q & after & -> & <- & Hq & _).
    apply list_elem_of_lookup in Hp as [i Hi].
    assert ((before ++ q :: after) !! length before = Some q) as Hj
      by apply list_lookup_middle, eq_refl.
    destruct (decide (i = length before)) as [->|Hne]; [congruence|].
    destruct (Hno i (length before) p q Hne Hi Hj gx gy).
    split; [apply Hst|apply Hq].
  - rewrite Forall_forall in Hown. by destruct (Hown p Hp).
Qed.

Lemma nonOverlapping_perm defs l l' :
  l ≡ₚ l' → nonOverlapping defs l → nonOverlapping defs l'.
Proof.
  intros Hperm Hno i j p q Hne Hi Hj gx gy.
  symmetry in Hperm. apply Permutation_inj in Hperm as (_ & f & Hinj & Hf).
  apply (Hno (f i) (f j) p q); [by intros ?%Hinj|by rewrite <- Hf..].
Qed.

(** X3. The order of the list matters to the occupancy grid only through
    overlaps: for a catalog of well-formed shapes, two arrangements of the
    same non-overlapping items have the same occupancy grid. *)
Theorem getOccupancyGridWithDefs_perm nrows ncols defs ignore l l' :
  wellFormedCatalog defs → nonOverlapping defs l → l ≡ₚ l' →
  getOccupancyGridWithDefs (BackpackSystem.mk nrows ncols l) defs ignore
  = getOccupancyGridWithDefs (BackpackSystem.mk nrows ncols l') defs ignore.
Proof.
  intros Hwf Hno Hperm.
  destruct (getOccupancyGridWithDefs_spec (BackpackSystem.mk nrows ncols l) defs ignore Hwf)
    as (g & -> & Hd & Hcells).
  destruct (getOccupancyGridWithDefs_spec (BackpackSystem.mk nrows ncols l') defs ignore Hwf)
    as (g' & -> & Hd' & Hcells').
  f_equal. apply (grid_ext (BackpackSystem.mk nrows ncols l)); [done..|].
  intros i j Hi Hj.
  destruct (Hcells i j Hi Hj) as (c & -> & Hown).
  destruct (Hcells' i j Hi Hj) as (c' & -> & Hown'). cbn [items] in *.
  f_equal. destruct c as [id|].
  - pose proof Hown as (before & p & after & Hl & <- & Hst & _).
    symmetry.
    apply (owner_nonOverlapping defs ignore l' (Z.of_nat j) (Z.of_nat i) c' p); [|done| |done].
    + by apply (nonOverlapping_perm defs l).
    + rewrite <- Hperm, Hl. apply elem_of_app. right. apply list_elem_of_here.
  - destruct c' as [id'|]; [|done].
    destruct Hown' as (before & p & after & Hl & _ & Hst & _).
    cbn in Hown. rewrite Forall_forall in Hown. destruct (Hown p); [|done].
    rewrite Hperm, Hl. apply elem_of_app. right. apply list_elem_of_here.
Qed.

Lemma potion_shield_apart :
  nonOverlapping ITEM_DEFINITIONS
    [PlacedItem.mk "p1" "potion" 0 0 0; PlacedItem.mk "s1" "shield" 1 0 0].
Proof.
  assert (∀ gx gy, covers ITEM_DEFINITIONS (PlacedItem.mk "p1" "potion" 0 0 0) gx gy →
                   covers ITEM_DEFINITIONS (PlacedItem.mk "s1" "shield" 1 0 0) gx gy →
                   False) as Hapart.
  { intros gx gy (d1 & Hd1 & r1 & c1 & (Hr1 & Hc1 & _) & Hx1 & _)
                 (d2 & Hd2 & r2 & c2 & (Hr2 & Hc2 & _) & Hx2 & _).
    vm_compute in Hd1, Hd2. simplify_eq. cbn in *. lia. }
  intros [|[|i]] [|[|j]] p q Hne Hi Hj gx gy [Hp Hq]; simplify_eq/=; eauto.
Qed.

Lemma getOccupancyGridWithDefs_perm_witness :
  getOccupancyGridWithDefs
    (BackpackSystem.mk 8 8
       [PlacedItem.mk "p1" "potion" 0 0 0; PlacedItem.mk "s1" "shield" 1 0 0])
    ITEM_DEFINITIONS None
  = getOccupancyGridWithDefs
      (BackpackSystem.mk 8 8
         [PlacedItem.mk "s1" "shield" 1 0 0; PlacedItem.mk "p1" "potion" 0 0 0])
      ITEM_DEFINITIONS None.
Proof.
  apply getOccupancyGridWithDefs_perm.
  - exact ITEM_DEFINITIONS_wellFormed.
  - exact potion_shield_apart.
  - apply perm_swap.
Defined.

(** ** More on first-fit packing *)

Lemma withXY_sameInstance a b x y :
  sameInstance a b → PlacedItem.withXY a x y = PlacedItem.withXY b x y.
Proof. intros (H1 & H2 & H3). unfold PlacedItem.withXY. by rewrite H1, H2, H3. Qed.

Lemma sameInstance_withXY item x y : sameInstance (PlacedItem.withXY item x y) item.
Proof. done. Qed.

Lemma areaOf_sameInstance defs a b : sameInstance a b → areaOf defs a = areaOf defs b.
Proof. intros (_ & H & _). unfold areaOf. by rewrite H. Qed.

Lemma Forall2_sameInstance_elem l l' a :
  Forall2 sameInstance l l' → a ∈ l → ∃ b, b ∈ l' ∧ sameInstance a b.
Proof.
  intros HF [i Hi]%list_elem_of_lookup.
  destruct (Forall2_lookup_l _ _ _ _ _ HF Hi) as (b & Hb & Hab).
  exists b. split; [by eapply list_elem_of_lookup_2|done].
Qed.

Lemma descending_sublist defs l1 l2 :
  l1 `sublist_of` l2 → descending defs l2 → descending defs l1.
Proof.
  induction 1 as [|a l1 l2 Hsub IH|a l1 l2 Hsub IH]; intros Hs; [done|..].
  - apply StronglySorted_inv in Hs as [Hs Hall]. constructor; [by apply IH|].
    rewrite Forall_forall in *. intros b Hb. apply Hall. by eapply elem_of_sublist.
  - apply StronglySorted_inv in Hs as [Hs _]. by apply IH.
Qed.

Lemma descending_sameInstance defs l l' :
  Forall2 sameInstance l l' → descending defs l' → descending defs l.
Proof.
  intros HF. induction HF as [|a b l l' Hab HF IH]; intros Hs; [constructor|].
  apply StronglySorted_inv in Hs as [Hs Hall]. constructor; [by apply IH|].
  rewrite Forall_forall in *. intros c Hc.
  destruct (Forall2_sameInstance_elem l l' c HF Hc) as (c' & Hc' & Hcc).
  rewrite (areaOf_sameInstance defs a b Hab), (areaOf_sameInstance defs c c' Hcc).
  by apply Hall.
Qed.

Lemma covering_sameInstance defs l l' :
  Forall2 sameInstance l l' → covering defs l' → covering defs l.
Proof.
  intros HF Hcov. apply Forall_forall. intros a Ha.
  destruct (Forall2_sameInstance_elem l l' a HF Ha) as (b & Hb & (_ & Hdef & _)).
  rewrite Hdef. unfold covering in Hcov. rewrite Forall_forall in Hcov. by apply Hcov.
Qed.

Section MorePacks.
Variable this : BackpackSystem.t.
Variable defs : Catalog.

(** The result of a packing is the placed items followed by the new ones;
    the new ones are, in order and up to their coordinates, items kept from
    the queue, and packing them again gives the same result. *)
Lemma packs_keeps placed queue out :
  packs this defs placed queue out →
  ∃ news kept,
    out = placed ++ news
    ∧ packs this defs placed news out
    ∧ kept `sublist_of` queue
    ∧ Forall2 sameInstance news kept.
Proof.
  induction 1 as [placed|placed item def x y queue out Hdef Hff _ IH
                 |placed item def queue out Hdef Hnone _ IH].
  - exists [], []. rewrite app_nil_r. split_and!; [done|constructor|done|constructor].
  - destruct IH as (news & kept & -> & Hpacks & Hsub & HF).
    exists (PlacedItem.withXY item (Z.of_nat x) (Z.of_nat y) :: news), (item :: kept).
    split_and!.
    + by rewrite <- app_assoc.
    + eapply (packs_place this defs placed _ def x y); [done|done|]. exact Hpacks.
    + by constructor.
    + constructor; [apply sameInstance_withXY|done].
  - destruct IH as (news & kept & -> & Hpacks & Hsub & HF).
    exists news, kept. split_and!; [done..| |done]. by constructor.
Qed.

Lemma firstFeasible_unique placed def x y x' y' :
  firstFeasible this defs placed def x y → firstFeasible this defs placed def x' y' →
  x = x' ∧ y = y'.
Proof.
  intros [Hf Hfirst] [Hf' Hfirst'].
  destruct (decide (y' < y ∨ (y' = y ∧ x' < x))) as [Hlt|Hge];
    [by destruct (Hfirst x' y' Hlt)|].
  destruct (decide (y < y' ∨ (y = y' ∧ x < x'))) as [Hlt|Hge'];
    [by destruct (Hfirst' x y Hlt)|].
  lia.
Qed.

(** First-fit packing leaves no choice. *)
Lemma packs_functional placed queue out1 out2 :
  packs this defs placed queue out1 → packs this defs placed queue out2 → out1 = out2.
Proof.
  intros H1. revert out2.
  induction H1 as [placed|placed item def x y queue out Hdef Hff _ IH
                  |placed item def queue out Hdef Hnone _ IH]; intros out2 H2.
  - by inversion H2.
  - inversion H2 as [|? ? def' x' y' ? ? Hdef' Hff' Hrest|? ? def' ? ? Hdef' Hnone' Hrest];
      subst; simplify_eq.
    + destruct (firstFeasible_unique _ _ _ _ _ _ Hff Hff') as [-> ->]. by apply IH.
    + destruct Hff as [Hf _]. by destruct (Hnone' x y).
  - inversion H2 as [|? ? def' x' y' ? ? Hdef' Hff' Hrest|? ? def' ? ? Hdef' Hnone' Hrest];
      subst; simplify_eq.
    + destruct Hff' as [Hf _]. by destruct (Hnone x' y').
    + by apply IH.
Qed.

(** On an empty grid the first feasible position is the origin. *)
Lemma firstFeasible_origin def x y :
  firstFeasible this defs [] def x y → x = 0 ∧ y = 0.
Proof.
  intros [(Hx & Hy & _) Hfirst].
  destruct (decide (x = 0 ∧ y = 0)) as [|Hne]; [done|].
  destruct (Hfirst 0 0); [lia|]. split_and!; [lia..|].
  intros gx gy _ p Hp. by apply elem_of_nil in Hp.
Qed.

Lemma packs_head placed queue out p :
  packs this defs placed queue out → placed = [] → out !! 0 = Some p →
  PlacedItem.x p = 0%Z ∧ PlacedItem.y p = 0%Z.
Proof.
  induction 1 as [placed|placed item def x y queue out Hdef Hff Hrest IH
                 |placed item def queue out Hdef Hnone _ IH]; intros -> Hp.
  - done.
  - apply firstFeasible_origin in Hff as [-> ->].
    apply packs_keeps in Hrest as (news & _ & -> & _). cbn in Hp. by simplify_eq.
  - by apply IH.
Qed.
End MorePacks.

(** A list in descending order of area is left as it is by the sort. *)
Lemma sortBy_descending defs l :
  covering defs l → descending defs l → sortBy (compareArea defs) l = Normal l.
Proof.
  induction l as [|a l IH]; intros Hcov Hs; [done|].
  apply Forall_cons in Hcov as [Ha Hcov]. apply StronglySorted_inv in Hs as [Hs Hall].
  cbn. rewrite IH by done. cbn. destruct l as [|b l]; [done|].
  apply Forall_cons in Hcov as [Hb _]. apply Forall_cons in Hall as [Hab _].
  cbn. rewrite compareArea_known by done. cbn.
  destruct (Z.leb_spec (areaOf defs b - areaOf defs a) 0); [done|lia].
Qed.

(** X4. [organize] is idempotent: organizing the list that [organize]
    returned, on the same grid and with the same catalog, returns it
    unchanged. *)
Theorem organize_idempotent this defs :
  wellFormedCatalog defs → covering defs (items this) →
  ∃ out, organize this defs = Normal out
         ∧ organize (BackpackSystem.mk (rows this) (cols this) out) defs = Normal out.
Proof.
  intros Hwf Hcov.
  destruct (organize_packs this defs Hwf Hcov)
    as (sorted & out & _ & Hperm & Hdesc & _ & Hrun & Hpacks).
  exists out. split; [done|].
  destruct (packs_keeps this defs [] sorted out Hpacks)
    as (news & kept & Hout & Hagain & Hsub & HF).
  cbn in Hout. subst news.
  assert (covering defs sorted) as Hcov' by (unfold covering; by rewrite <- Hperm).
  assert (covering defs out) as Hcov_out.
  { apply (covering_sameInstance defs out kept HF).
    apply Forall_forall. intros k Hk. unfold covering in Hcov'.
    rewrite Forall_forall in Hcov'. apply Hcov'. by eapply elem_of_sublist. }
  assert (descending defs out) as Hdesc_out.
  { apply (descending_sameInstance defs out kept HF). by eapply descending_sublist. }
  destruct (placeItems_packs this defs out ([], newGrid this false) Hwf Hcov_out)
    as (st' & Hrun' & Hpacks'); [apply packed_init|].
  transitivity (st ← foldlM (placeItem this defs) ([], newGrid this false) out;
                Normal st.1).
  { unfold organize. cbn [items]. rewrite sortBy_descending by done. reflexivity. }
  rewrite Hrun'. cbn. f_equal. by apply (packs_functional this defs [] out).
Qed.

Lemma organize_idempotent_witness :
  ∃ out, organize fourGems ITEM_DEFINITIONS = Normal out
         ∧ organize (BackpackSystem.mk (rows fourGems) (cols fourGems) out) ITEM_DEFINITIONS
           = Normal out.
Proof.
  apply organize_idempotent; [exact ITEM_DEFINITIONS_wellFormed|exact fourGems_covered].
Defined.

(** X5. The first item [organize] returns sits at the origin. *)
Theorem organize_first_at_origin this defs out p :
  wellFormedCatalog defs → covering defs (items this) →
  organize this defs = Normal out → out !! 0 = Some p →
  PlacedItem.x p = 0%Z ∧ PlacedItem.y p = 0%Z.
Proof.
  intros Hwf Hcov Hrun Hp.
  destruct (organize_packs this defs Hwf Hcov) as (sorted & out' & _ & _ & _ & _ & Hrun' & Hpacks).
  assert (out' = out) as -> by congruence.
  by eapply packs_head.
Qed.

Lemma organize_first_at_origin_witness :
  PlacedItem.x (PlacedItem.mk "A" "gem" 0 0 0) = 0%Z
  ∧ PlacedItem.y (PlacedItem.mk "A" "gem" 0 0 0) = 0%Z.
Proof.
  apply (organize_first_at_origin fourGems ITEM_DEFINITIONS
           [PlacedItem.mk "A" "gem" 0 0 0; PlacedItem.mk "B" "gem" 1 0 0;
            PlacedItem.mk "C" "gem" 0 1 0; PlacedItem.mk "D" "gem" 1 1 0]).
  - exact ITEM_DEFINITIONS_wellFormed.
  - exact fourGems_covered.
  - reflexivity.
  - reflexivity.
Defined.

(** X6. [organize] returns the items it keeps in the order of the sorted
    list, so that the instance ids of the result are, in order, a
    subsequence of the instance ids of the sorted input; in particular
    instance ids that are unique in the input are unique in the result. *)
Theorem organize_keeps_order_and_ids this defs :
  wellFormedCatalog defs → covering defs (items this) →
  ∃ sorted out,
    sortBy (compareArea defs) (items this) = Normal sorted
    ∧ organize this defs = Normal out
    ∧ (PlacedItem.instanceId <$> out) `sublist_of` (PlacedItem.instanceId <$> sorted)
    ∧ (NoDup (PlacedItem.instanceId <$> items this) →
       NoDup (PlacedItem.instanceId <$> out)).
Proof.
  intros Hwf Hcov.
  destruct (organize_packs this defs Hwf Hcov)
    as (sorted & out & Hsort & Hperm & _ & _ & Hrun & Hpacks).
  exists sorted, out. split; [done|]. split; [done|].
  destruct (packs_keeps this defs [] sorted out Hpacks)
    as (news & kept & Hout & _ & Hsub & HF).
  cbn in Hout. subst news.
  assert (PlacedItem.instanceId <$> out = PlacedItem.instanceId <$> kept) as Hids.
  { clear -HF. induction HF as [|a b l l' (Hid & _) _ IH]; [done|]. cbn. by rewrite Hid, IH. }
  assert ((PlacedItem.instanceId <$> out) `sublist_of` (PlacedItem.instanceId <$> sorted))
    as Hsubids.
  { rewrite Hids. by apply fmap_sublist. }
  split; [done|]. intros Hnodup. eapply sublist_NoDup; [|exact Hsubids].
  by rewrite <- Hperm.
Qed.

Lemma organize_keeps_order_and_ids_witness :
  ∃ out, organize fourGems ITEM_DEFINITIONS = Normal out
         ∧ NoDup (PlacedItem.instanceId <$> out).
Proof.
  destruct (organize_keeps_order_and_ids fourGems ITEM_DEFINITIONS
              ITEM_DEFINITIONS_wellFormed fourGems_covered)
    as (sorted & out & _ & Hrun & _ & Hnodup).
  exists out. split; [exact Hrun|]. apply Hnodup.
  apply (bool_decide_unpack _). vm_compute. exact I.
Defined.

(** ** The coordinates of the input *)

Lemma firstM_ext {A B} (f g : A → completion (option B)) l :
  (∀ a, f a = g a) → firstM f l = firstM g l.
Proof. intros Hfg. induction l as [|a l IH]; [done|]. cbn. by rewrite Hfg, IH. Qed.

Lemma foldlM_Forall2 {A S} (R : A → A → Prop) (body : S → A → completion S) l l' s :
  (∀ s a b, R a b → body s a = body s b) →
  Forall2 R l l' → foldlM body s l = foldlM body s l'.
Proof.
  intros Hbody HF. revert s. induction HF as [|a b l l' Hab _ IH]; intros s; [done|].
  cbn. rewrite (Hbody s a b Hab). destruct (body s b); cbn; [apply IH|done].
Qed.

(** Lists related element by element are sorted alike when the comparator
    does not tell related elements apart. *)
Lemma insertBy_Forall2 {A} (R : A → A → Prop) (cmp : A → A → completion Z) a b l l' :
  (∀ a b a' b', R a a' → R b b' → cmp a b = cmp a' b') →
  R a b → Forall2 R l l' →
  match insertBy cmp a l, insertBy cmp b l' with
  | Normal s, Normal s' => Forall2 R s s'
  | TypeError, TypeError => True
  | _, _ => False
  end.
Proof.
  intros Hcmp Hab HF. induction HF as [|c c' l l' Hc HF IH]; cbn.
  - by repeat constructor.
  - rewrite (Hcmp a c b c') by done. destruct (cmp b c') as [v|]; cbn; [|done].
    destruct (v <=? 0)%Z; [by repeat constructor|].
    destruct (insertBy cmp a l), (insertBy cmp b l'); cbn; try done. by constructor.
Qed.

Lemma sortBy_Forall2 {A} (R : A → A → Prop) (cmp : A → A → completion Z) l l' :
  (∀ a b a' b', R a a' → R b b' → cmp a b = cmp a' b') →
  Forall2 R l l' →
  match sortBy cmp l, sortBy cmp l' with
  | Normal s, Normal s' => Forall2 R s s'
  | TypeError, TypeError => True
  | _, _ => False
  end.
Proof.
  intros Hcmp HF. induction HF as [|a b l l' Hab HF IH]; cbn; [done|].
  destruct (sortBy cmp l) as [s|], (sortBy cmp l') as [s'|]; cbn; try done.
  by apply insertBy_Forall2.
Qed.

Lemma placeItem_sameInstance this defs st a b :
  sameInstance a b → placeItem this defs st a = placeItem this defs st b.
Proof.
  intros Hab. pose proof Hab as (_ & Hdef & _). unfold placeItem. rewrite Hdef.
  destruct (defs !! PlacedItem.defId b) as [def|]; [|done]. f_equal.
  apply firstM_ext. intros y. apply firstM_ext. intros x.
  unfold tryAt. by rewrite (withXY_sameInstance a b _ _ Hab).
Qed.

(** X7. [organize] does not read the coordinates of its input: two lists
    that agree, item by item, on [instanceId], [defId] and [rotation] give
    the same result, for every catalog (and throw alike). *)
Theorem organize_ignores_coordinates nrows ncols defs l l' :
  Forall2 sameInstance l l' →
  organize (BackpackSystem.mk nrows ncols l) defs
  = organize (BackpackSystem.mk nrows ncols l') defs.
Proof.
  intros HF. unfold organize. cbn [items].
  pose proof (sortBy_Forall2 sameInstance (compareArea defs) l l') as Hsort.
  destruct (sortBy (compareArea defs) l) as [s|], (sortBy (compareArea defs) l') as [s'|];
    cbn.
  - change (newGrid (BackpackSystem.mk nrows ncols l') false)
      with (newGrid (BackpackSystem.mk nrows ncols l) false).
    rewrite (foldlM_Forall2 sameInstance
               (placeItem (BackpackSystem.mk nrows ncols l) defs) s s').
    + done.
    + intros st a b Hab. by apply placeItem_sameInstance.
    + apply Hsort; [|done]. intros a b a' b' (_ & Ha & _) (_ & Hb & _).
      unfold compareArea. by rewrite Ha, Hb.
  - destruct Hsort; [|done]. intros a b a' b' (_ & Ha & _) (_ & Hb & _).
    unfold compareArea. by rewrite Ha, Hb.
  - destruct Hsort; [|done]. intros a b a' b' (_ & Ha & _) (_ & Hb & _).
    unfold compareArea. by rewrite Ha, Hb.
  - done.
Qed.

Lemma organize_ignores_coordinates_witness :
  organize (BackpackSystem.mk 8 8 [PlacedItem.mk "p1" "potion" 5 7 0]) ITEM_DEFINITIONS
  = organize (BackpackSystem.mk 8 8 [PlacedItem.mk "p1" "potion" (-3) 40 0]) ITEM_DEFINITIONS.
Proof.
  apply organize_ignores_coordinates. repeat constructor.
Defined.

(** ** The occupancy grid of an organized backpack *)

(** X8. In the occupancy grid of the list [organize] returns, every cell
    covered by a returned item holds the instance id of that item, and every
    cell no returned item covers holds [null]. *)
Theorem organize_then_occupancy this defs :
  wellFormedCatalog defs → covering defs (items this) →
  ∃ out grid,
    organize this defs = Normal out
    ∧ getOccupancyGridWithDefs (BackpackSystem.mk (rows this) (cols this) out) defs None
      = Normal grid
    ∧ ∀ gy gx, gy < rows this → gx < cols this →
        (∀ p, p ∈ out → covers defs p (Z.of_nat gx) (Z.of_nat gy) →
              cellAt grid gy gx = Some (Some (PlacedItem.instanceId p)))
        ∧ ((∀ p, p ∈ out → ¬ covers defs p (Z.of_nat gx) (Z.of_nat gy)) →
           cellAt grid gy gx = Some None).
Proof.
  intros Hwf Hcov.
  destruct (organize_packs this defs Hwf Hcov)
    as (sorted & out & _ & _ & _ & _ & Hrun & Hpacks).
  apply packs_tidy in Hpacks as [_ Hno]; [|apply tidy_nil].
  destruct (getOccupancyGridWithDefs_spec
              (BackpackSystem.mk (rows this) (cols this) out) defs None Hwf)
    as (grid & Hgrid & _ & Hcells).
  exists out, grid. split; [done|]. split; [done|]. intros gy gx Hy Hx.
  destruct (Hcells gy gx Hy Hx) as (cell & -> & Hown). cbn [items] in Hown. split.
  - intros p Hp Hcov'. f_equal.
    apply (owner_nonOverlapping defs None out (Z.of_nat gx) (Z.of_nat gy) cell p);
      [done..|]. by split.
  - intros Hfree. f_equal. destruct cell as [id|]; [|done].
    destruct Hown as (before & p & after & -> & _ & [_ Hcov'] & _).
    destruct (Hfree p); [|done]. apply elem_of_app. right. apply list_elem_of_here.
Qed.

Lemma organize_then_occupancy_witness :
  ∃ out grid,
    organize fourGems ITEM_DEFINITIONS = Normal out
    ∧ getOccupancyGridWithDefs (BackpackSystem.mk (rows fourGems) (cols fourGems) out)
        ITEM_DEFINITIONS None = Normal grid.
Proof.
  destruct (organize_then_occupancy fourGems ITEM_DEFINITIONS
              ITEM_DEFINITIONS_wellFormed fourGems_covered)
    as (out & grid & Hrun & Hgrid & _).
  exists out, grid. split; [exact Hrun|exact Hgrid].
Defined.

(** ** The empty result *)

Lemma feasible_origin this defs def :
  feasible this defs [] def 0 0
  ↔ ItemDefinition.width def ≤ cols this ∧ ItemDefinition.height def ≤ rows this.
Proof.
  unfold feasible. split; [lia|]. intros [Hw Hh]. split_and!; [lia..|].
  intros gx gy _ p Hp. by apply elem_of_nil in Hp.
Qed.

Lemma packs_nil_iff this defs placed queue out :
  packs this defs placed queue out → placed = [] →
  out = [] ↔
  ∀ item def, item ∈ queue → defs !! PlacedItem.defId item = Some def →
    ¬ (ItemDefinition.width def ≤ cols this ∧ ItemDefinition.height def ≤ rows this).
Proof.
  induction 1 as [placed|placed item def x y queue out Hdef Hff Hrest _
                 |placed item def queue out Hdef Hnone _ IH]; intros ->.
  - split; [|done]. intros _ item def Hin. by apply elem_of_nil in Hin.
  - apply packs_keeps in Hrest as (news & _ & -> & _). split; [done|].
    intros Hnofit. destruct (Hnofit item def); [left|done|].
    destruct Hff as [(Hx & Hy & _) _]. lia.
  - rewrite (IH eq_refl). split.
    + intros Hrest item' def' [->|Hin]%elem_of_cons Hdef'.
      * assert (def' = def) as -> by congruence.
        intros Hfit. by apply (Hnone 0 0), feasible_origin.
      * by apply (Hrest item').
    + intros Hall item' def' Hin. apply Hall. by right.
Qed.

(** X9. [organize] returns the empty list exactly when no item has a
    bounding box that fits the grid ([width <= cols] and [height <= rows]);
    in particular it returns the empty list for the empty list. *)
Theorem organize_empty_iff this defs :
  wellFormedCatalog defs → covering defs (items this) →
  organize this defs = Normal []
  ↔ ∀ item def, item ∈ items this → defs !! PlacedItem.defId item = Some def →
      ¬ (ItemDefinition.width def ≤ cols this ∧ ItemDefinition.height def ≤ rows this).
Proof.
  intros Hwf Hcov.
  destruct (organize_packs this defs Hwf Hcov)
    as (sorted & out & _ & Hperm & _ & _ & Hrun & Hpacks).
  pose proof (packs_nil_iff this defs [] sorted out Hpacks eq_refl) as Hiff.
  rewrite Hrun. split.
  - intros [= ->]. intros item def Hin. apply (proj1 Hiff eq_refl item def).
    by rewrite <- Hperm.
  - intros Hnofit. f_equal. apply Hiff. intros item def Hin. apply (Hnofit item def).
    by rewrite Hperm.
Qed.

Lemma organize_empty_iff_witness :
  organize (BackpackSystem.mk 1 1 [PlacedItem.mk "s1" "shield" 0 0 0]) ITEM_DEFINITIONS
  = Normal [].
Proof.
  apply organize_empty_iff.
  - exact ITEM_DEFINITIONS_wellFormed.
  - repeat constructor. by exists shield.
  - intros item def ->%list_elem_of_singleton Hdef. vm_compute in Hdef.
    injection Hdef as <-. cbn. lia.
Defined.

(** * Properties of the application *)

(** ** Pointer arithmetic *)


(** ** Dropping *)

(** For a well-formed shape the validator called by the handlers answers
    the bounds check. *)
Lemma canPlaceItem_wellFormed this def x y ignore :
  wellFormed def →
  canPlaceItem this def x y ignore = Normal (negb (outOfBounds this def x y)).
Proof.
  intros Hwf%wellFormed_rows. destruct (outOfBounds this def x y) eqn:Hout; cbn.
  - apply canPlaceItem_outOfBounds. intros Hin%outOfBounds_false. congruence.
  - apply canPlaceItem_inBounds; [done|]. by apply outOfBounds_false.
Qed.

Lemma catalog_wellFormed defId def :
  ITEM_DEFINITIONS !! defId = Some def → wellFormed def.
Proof. apply ITEM_DEFINITIONS_wellFormed. Qed.

(** The outcome of the first half of [handleMouseUp] over the backpack. *)
Lemma tryDrop_inside st d rect clientX clientY uuid def :
  ITEM_DEFINITIONS !! DraggingState.defId d = Some def →
  App.inside rect clientX clientY = true →
  App.tryDrop st d (Some rect) clientX clientY uuid
  = Normal
      (if outOfBounds (BackpackSystem.mk GRID_ROWS GRID_COLS (App.backpackItems st)) def
            (App.dropCell d rect clientX clientY).1 (App.dropCell d rect clientX clientY).2
       then None
       else Some (PlacedItem.mk (App.droppedId d uuid) (DraggingState.defId d)
                    (App.dropCell d rect clientX clientY).1
                    (App.dropCell d rect clientX clientY).2 0)).
Proof.
  intros Hdef Hin. unfold App.tryDrop. rewrite Hin.
  destruct (App.dropCell d rect clientX clientY) as [gx gy]. rewrite Hdef.
  rewrite canPlaceItem_wellFormed by (by eapply catalog_wellFormed). cbn.
  by destruct (outOfBounds _ def gx gy).
Qed.

(** X11. A drop from the staging area over the backpack is decided by the
    bounds alone, whatever the backpack already holds: within bounds the
    item is appended at the drop cell with the fresh id and rotation 0; out
    of bounds the backpack is unchanged and the item type goes back to the
    spawn queue.  Either way the drag ends. *)
Theorem staging_drop_decided_by_bounds st defId offset def rect clientX clientY uuid :
  App.dragging st = Some (DraggingState.staging defId offset) →
  ITEM_DEFINITIONS !! defId = Some def →
  App.inside rect clientX clientY = true →
  let d := DraggingState.staging defId offset in
  let sys := BackpackSystem.mk GRID_ROWS GRID_COLS (App.backpackItems st) in
  let gx := (App.dropCell d rect clientX clientY).1 in
  let gy := (App.dropCell d rect clientX clientY).2 in
  (inBounds sys def gx gy →
   App.handleMouseUp st (Some rect) clientX clientY uuid
   = Normal (App.mk (App.backpackItems st ++ [PlacedItem.mk uuid defId gx gy 0])
                    None None (App.spawnQueue st)))
  ∧ (¬ inBounds sys def gx gy →
     App.handleMouseUp st (Some rect) clientX clientY uuid
     = Normal (App.mk (App.backpackItems st) None None (App.spawnQueue st ++ [defId]))).
Proof.
  intros Hdrag Hdef Hin d sys gx gy. unfold App.handleMouseUp. rewrite Hdrag.
  cbv beta iota. fold d.
  rewrite (tryDrop_inside st d rect clientX clientY uuid def) by done.
  fold sys gx gy. split; intros Hb.
  - rewrite (proj2 (outOfBounds_false sys def gx gy) Hb). done.
  - destruct (outOfBounds sys def gx gy) eqn:Hout; [done|].
    by apply outOfBounds_false in Hout.
Qed.

Lemma staging_drop_decided_by_bounds_witness :
  App.handleMouseUp
    (App.mk [potionAtOrigin] (Some (DraggingState.staging "shield" (24, 24)%Z)) None [])
    (Some (DOMRect.mk 100 100 492 492)) 110 110 "u1"
  = Normal (App.mk [potionAtOrigin; PlacedItem.mk "u1" "shield" 0 0 0] None None []).
Proof.
  apply (staging_drop_decided_by_bounds
           (App.mk [potionAtOrigin] (Some (DraggingState.staging "shield" (24, 24)%Z)) None [])
           "shield" (24, 24)%Z shield (DOMRect.mk 100 100 492 492) 110 110 "u1").
  - reflexivity.
  - reflexivity.
  - reflexivity.
  - unfold inBounds. vm_compute. intuition discriminate.
Defined.

(** ** Picking up and putting down *)

Lemma list_find_unique_id l item :
  item ∈ l → NoDup (PlacedItem.instanceId <$> l) →
  ∃ k, list_find (λ i, PlacedItem.instanceId i = PlacedItem.instanceId item) l
       = Some (k, item).
Proof.
  intros Hin Hnodup.
  destruct (list_find_elem_of (λ i, PlacedItem.instanceId i = PlacedItem.instanceId item)
              l item Hin eq_refl) as [[k found] Hfind].
  exists k. rewrite Hfind. f_equal. f_equal.
  apply list_find_Some in Hfind as (Hk & Hid & _).
  apply list_elem_of_lookup in Hin as [j Hj].
  assert (k = j) as ->; [|congruence].
  apply (NoDup_lookup _ k j (PlacedItem.instanceId item) Hnodup).
  - by rewrite list_lookup_fmap, Hk, <- Hid.
  - by rewrite list_lookup_fmap, Hj.
Qed.

Lemma filter_other_ids_length l item :
  item ∈ l → NoDup (PlacedItem.instanceId <$> l) →
  S (length (filter (λ i, PlacedItem.instanceId i ≠ PlacedItem.instanceId item) l))
  = length l.
Proof.
  induction l as [|a l IH]; intros Hin Hnodup; [by apply elem_of_nil in Hin|].
  cbn in Hnodup. apply NoDup_cons in Hnodup as [Ha Hnodup].
  rewrite filter_cons. destruct (decide (PlacedItem.instanceId a ≠ PlacedItem.instanceId item))
    as [Hne|Heq%dec_stable].
  - cbn. f_equal. apply IH; [|done].
    apply elem_of_cons in Hin as [->|Hin]; [done|done].
  - cbn. f_equal. clear IH Hin. rewrite Heq in Ha. clear Heq.
    induction l as [|b l IH]; [done|].
    cbn in Ha, Hnodup. apply NoDup_cons in Hnodup as [_ Hnodup].
    apply not_elem_of_cons in Ha as [Hb Ha].
    rewrite filter_cons, decide_True by congruence. cbn. f_equal. by apply IH.
Qed.

(** X12. Picking up a placed item and releasing the mouse never loses it
    (instance ids unique and non-empty, the type in the catalog): the pickup
    removes the item from the backpack, and whatever the release position
    is, the release appends one item with the same instance id and type and
    with rotation 0, either at its original coordinates or at an in-bounds
    drop cell; the other items, their order and the spawn queue are as
    before, and the drag is over. *)
Theorem pickup_then_release_keeps_item st item clientX clientY :
  item ∈ App.backpackItems st →
  NoDup (PlacedItem.instanceId <$> App.backpackItems st) →
  is_Some (ITEM_DEFINITIONS !! PlacedItem.defId item) →
  PlacedItem.instanceId item ≠ "" →
  ∃ st1,
    BackpackGrid.onMouseDown st item clientX clientY = Normal st1
    ∧ App.backpackItems st1
      = filter (λ i, PlacedItem.instanceId i ≠ PlacedItem.instanceId item)
          (App.backpackItems st)
    ∧ ∀ backpackEl upX upY uuid,
        ∃ st2 x' y',
          App.handleMouseUp st1 backpackEl upX upY uuid = Normal st2
          ∧ App.backpackItems st2
            = App.backpackItems st1
              ++ [PlacedItem.mk (PlacedItem.instanceId item) (PlacedItem.defId item) x' y' 0]
          ∧ ((x' = PlacedItem.x item ∧ y' = PlacedItem.y item)
             ∨ ∃ def, ITEM_DEFINITIONS !! PlacedItem.defId item = Some def
                      ∧ inBounds (BackpackSystem.mk GRID_ROWS GRID_COLS []) def x' y')
          ∧ length (App.backpackItems st2) = length (App.backpackItems st)
          ∧ App.dragging st2 = None ∧ App.dragPos st2 = None
          ∧ App.spawnQueue st2 = App.spawnQueue st.
Proof.
  intros Hin Hnodup [def Hdef] Hid.
  destruct (list_find_unique_id _ item Hin Hnodup) as [k Hfind].
  set (d := DraggingState.backpack (PlacedItem.defId item) (PlacedItem.instanceId item)
              (PlacedItem.x item) (PlacedItem.y item)
              ((Z.of_nat (ItemDefinition.width def) * CELL_SIZE) / 2,
               (Z.of_nat (ItemDefinition.height def) * CELL_SIZE) / 2)%Z).
  set (st1 := App.mk
                (filter (λ i, PlacedItem.instanceId i ≠ PlacedItem.instanceId item)
                   (App.backpackItems st))
                (Some d) (Some (clientX, clientY)) (App.spawnQueue st)).
  exists st1. split.
  { unfold BackpackGrid.onMouseDown, App.handlePickupFromBackpack.
    by rewrite Hfind, Hdef. }
  split; [done|]. intros backpackEl upX upY uuid.
  assert (∀ x' y',
    length (App.backpackItems st1
            ++ [PlacedItem.mk (PlacedItem.instanceId item) (PlacedItem.defId item) x' y' 0])
    = length (App.backpackItems st)) as Hlen.
  { intros x' y'. rewrite length_app. cbn.
    rewrite <- (filter_other_ids_length _ item Hin Hnodup). lia. }
  assert (App.tryDrop st1 d backpackEl upX upY uuid = Normal None
          ∨ ∃ gx gy, App.tryDrop st1 d backpackEl upX upY uuid
                     = Normal (Some (PlacedItem.mk (PlacedItem.instanceId item)
                                       (PlacedItem.defId item) gx gy 0))
                     ∧ inBounds (BackpackSystem.mk GRID_ROWS GRID_COLS []) def gx gy)
    as Htry.
  { destruct backpackEl as [rect|]; [|by left].
    destruct (App.inside rect upX upY) eqn:Hins; [|left; unfold App.tryDrop; by rewrite Hins].
    rewrite (tryDrop_inside st1 d rect upX upY uuid def) by done.
    destruct (outOfBounds _ def _ _) eqn:Hout; [by left|]. right.
    eexists _, _. split.
    - unfold App.droppedId. cbn. by rewrite decide_False.
    - by apply outOfBounds_false in Hout. }
  unfold App.handleMouseUp. change (App.dragging st1) with (Some d). cbv beta iota.
  destruct Htry as [Htry|(gx & gy & Htry & Hb)]; rewrite Htry.
  - exists (App.mk (App.backpackItems st1
                    ++ [PlacedItem.mk (PlacedItem.instanceId item) (PlacedItem.defId item)
                          (PlacedItem.x item) (PlacedItem.y item) 0])
                   None None (App.spawnQueue st1)),
           (PlacedItem.x item), (PlacedItem.y item).
    split; [done|]. split_and!; [done|by left|apply Hlen|done..].
  - exists (App.mk (App.backpackItems st1
                    ++ [PlacedItem.mk (PlacedItem.instanceId item) (PlacedItem.defId item)
                          gx gy 0])
                   None None (App.spawnQueue st1)), gx, gy.
    split; [done|]. split_and!; [done|right; by exists def|apply Hlen|done..].
Qed.

Lemma pickup_then_release_keeps_item_witness :
  ∃ st1, BackpackGrid.onMouseDown (App.mk [potionAtOrigin] None None []) potionAtOrigin 10 10
         = Normal st1
         ∧ App.backpackItems st1 = [].
Proof.
  destruct (pickup_then_release_keeps_item (App.mk [potionAtOrigin] None None [])
              potionAtOrigin 10 10) as (st1 & Hdown & Hitems & _).
  - apply list_elem_of_here.
  - apply (bool_decide_unpack _). vm_compute. exact I.
  - by exists potion.
  - discriminate.
  - exists st1. split; [exact Hdown|]. rewrite Hitems. reflexivity.
Defined.

(** ** The drop preview *)

(** X13. The ghost of [BackpackGrid] tells what a release does.  With the
    grid element and the backpack element at the same top-left corner and
    the mouse inside the backpack element at the position of the last
    mouse move, [isValidPlacement] completes normally, and releasing there
    places the dragged item at the snap position exactly when it is
    [true]. *)
Theorem preview_agrees_with_release st d pos gridRect backpackEl uuid :
  App.dragging st = Some d → App.dragPos st = Some pos →
  is_Some (ITEM_DEFINITIONS !! DraggingState.defId d) →
  DOMRect.left gridRect = DOMRect.left backpackEl →
  DOMRect.top gridRect = DOMRect.top backpackEl →
  App.inside backpackEl pos.1 pos.2 = true →
  ∃ valid gridX gridY,
    BackpackGrid.snapPosition (App.dragging st) (App.dragPos st) (Some gridRect)
    = Some (gridX, gridY)
    ∧ BackpackGrid.isValidPlacement (App.backpackItems st) (App.dragging st)
        (App.dragPos st) (Some gridRect) = Normal valid
    ∧ App.tryDrop st d (Some backpackEl) pos.1 pos.2 uuid
      = Normal (if valid : bool
                then Some (PlacedItem.mk (App.droppedId d uuid) (DraggingState.defId d)
                             gridX gridY 0)
                else None).
Proof.
  intros Hdrag Hpos [def Hdef] Hleft Htop Hins. destruct pos as [posX posY].
  cbn [fst snd] in *.
  rewrite (tryDrop_inside st d backpackEl posX posY uuid def) by done.
  unfold BackpackGrid.isValidPlacement, BackpackGrid.snapPosition.
  rewrite Hdrag, Hpos, Hdef, Hleft, Htop.
  rewrite canPlaceItem_wellFormed by (by eapply catalog_wellFormed).
  unfold App.dropCell. cbn [fst snd].
  replace (posX - DOMRect.left backpackEl - (DraggingState.offset d).1)%Z
    with (posX - (DraggingState.offset d).1 - DOMRect.left backpackEl)%Z by lia.
  replace (posY - DOMRect.top backpackEl - (DraggingState.offset d).2)%Z
    with (posY - (DraggingState.offset d).2 - DOMRect.top backpackEl)%Z by lia.
  eexists _, _, _. split; [done|]. split; [done|].
  by destruct (outOfBounds _ def _ _).
Qed.

Lemma preview_agrees_with_release_witness :
  ∃ valid,
    BackpackGrid.isValidPlacement [potionAtOrigin]
      (Some (DraggingState.staging "shield" (24, 24)%Z)) (Some (110, 110)%Z)
      (Some (DOMRect.mk 100 100 492 492)) = Normal valid.
Proof.
  destruct (preview_agrees_with_release
              (App.mk [potionAtOrigin] (Some (DraggingState.staging "shield" (24, 24)%Z))
                 (Some (110, 110)%Z) [])
              (DraggingState.staging "shield" (24, 24)%Z) (110, 110)%Z
              (DOMRect.mk 100 100 492 492) (DOMRect.mk 100 100 492 492) "u1")
    as (valid & _ & _ & _ & Hvalid & _).
  - reflexivity.
  - reflexivity.
  - by exists shield.
  - reflexivity.
  - reflexivity.
  - reflexivity.
  - exists valid. exact Hvalid.
Defined.

(** ** Item types stay known *)

Lemma tryDrop_known st d backpackEl clientX clientY uuid :
  is_Some (ITEM_DEFINITIONS !! DraggingState.defId d) →
  ∃ dropped, App.tryDrop st d backpackEl clientX clientY uuid = Normal dropped
    ∧ ∀ newItem, dropped = Some newItem →
                 PlacedItem.defId newItem = DraggingState.defId d.
Proof.
  intros [def Hdef]. destruct backpackEl as [rect|]; [|by exists None].
  destruct (App.inside rect clientX clientY) eqn:Hins.
  - rewrite (tryDrop_inside st d rect clientX clientY uuid def) by done.
    eexists. split; [done|]. intros newItem. destruct (outOfBounds _ _ _ _); [done|].
    by intros [= <-].
  - exists None. unfold App.tryDrop. by rewrite Hins.
Qed.

Lemma organize_covering this defs :
  wellFormedCatalog defs → covering defs (items this) →
  ∃ out, organize this defs = Normal out ∧ covering defs out ∧ tidy this defs out.
Proof.
  intros Hwf Hcov.
  destruct (organize_packs this defs Hwf Hcov)
    as (sorted & out & _ & Hperm & _ & _ & Hrun & Hpacks).
  exists out. split; [done|]. split.
  - destruct (packs_keeps this defs [] sorted out Hpacks) as (news & kept & Hout & _ & Hsub & HF).
    cbn in Hout. subst news. apply (covering_sameInstance defs out kept HF).
    apply Forall_forall. intros k Hk. unfold covering in Hcov.
    rewrite Forall_forall in Hcov. apply Hcov. rewrite Hperm. by eapply elem_of_sublist.
  - apply (packs_tidy this defs [] sorted out Hpacks), tidy_nil.
Qed.

(** X14. The handlers of [App] keep every item type known: from a state in
    which the types of the placed items and of the dragged item are in the
    catalog, [handleClear], [handleMouseMove], [handleDragStartFromStaging]
    (for a catalog type), [handlePickupFromBackpack] and [handleMouseUp]
    complete normally in such a state again.  There [handleOrganize]
    completes normally too, and leaves a backpack whose items lie within the
    8 x 8 grid and do not overlap. *)
Theorem handlers_keep_types_known st :
  knownTypes st →
  knownTypes (App.handleClear st)
  ∧ (∀ clientX clientY, knownTypes (App.handleMouseMove st clientX clientY))
  ∧ (∀ defId clientX clientY,
       is_Some (ITEM_DEFINITIONS !! defId) →
       knownTypes (App.handleDragStartFromStaging st defId clientX clientY))
  ∧ (∀ instanceId x y clientX clientY,
       ∃ st', App.handlePickupFromBackpack st instanceId x y clientX clientY = Normal st'
              ∧ knownTypes st')
  ∧ (∀ backpackEl clientX clientY uuid,
       ∃ st', App.handleMouseUp st backpackEl clientX clientY uuid = Normal st'
              ∧ knownTypes st')
  ∧ (∃ st', App.handleOrganize st = Normal st'
            ∧ knownTypes st'
            ∧ tidy (BackpackSystem.mk GRID_ROWS GRID_COLS (App.backpackItems st'))
                ITEM_DEFINITIONS (App.backpackItems st')).
Proof.
  intros Hknown. pose proof Hknown as [Hitems Hdrag]. split_and!.
  - split; [constructor|done].
  - intros clientX clientY. unfold App.handleMouseMove.
    destruct (App.dragging st) as [d0|] eqn:Hd.
    + split; [done|]. intros d Hd'. cbn in Hd'. apply Hdrag. congruence.
    + exact Hknown.
  - intros defId clientX clientY Hdef. split; [done|]. cbn. by intros d [= <-].
  - intros instanceId x y clientX clientY. unfold App.handlePickupFromBackpack.
    destruct (list_find _ _) as [[k item]|] eqn:Hfind; [|by exists st].
    apply list_find_Some in Hfind as (Hk & _ & _).
    assert (is_Some (ITEM_DEFINITIONS !! PlacedItem.defId item)) as [def Hdef].
    { unfold covering in Hitems. rewrite Forall_forall in Hitems.
      apply Hitems. by eapply list_elem_of_lookup_2. }
    rewrite Hdef. eexists. split; [done|]. split; cbn.
    + apply Forall_forall. intros i [_ Hi]%list_elem_of_filter.
      unfold covering in Hitems. rewrite Forall_forall in Hitems. by apply Hitems.
    + intros d [= <-]. by exists def.
  - intros backpackEl clientX clientY uuid. unfold App.handleMouseUp.
    destruct (App.dragging st) as [d|] eqn:Hd; [|by exists st].
    specialize (Hdrag d eq_refl).
    destruct (tryDrop_known st d backpackEl clientX clientY uuid Hdrag)
      as (dropped & -> & Hnew).
    cbn. destruct dropped as [newItem|].
    + eexists. split; [done|]. split; [|done]. cbn.
      apply Forall_app. split; [done|]. constructor; [|done].
      by rewrite (Hnew newItem eq_refl).
    + destruct d as [defId offset|defId instanceId originalX originalY offset].
      * eexists. split; [done|]. by split.
      * eexists. split; [done|]. split; [|done]. cbn.
        apply Forall_app. split; [done|]. by constructor.
  - unfold App.handleOrganize.
    destruct (organize_covering (BackpackSystem.mk GRID_ROWS GRID_COLS (App.backpackItems st))
                ITEM_DEFINITIONS ITEM_DEFINITIONS_wellFormed Hitems)
      as (out & -> & Hcov & Htidy).
    cbn. eexists. split; [done|]. split; [by split|]. exact Htidy.
Qed.

Lemma handlers_keep_types_known_witness :
  ∃ st', App.handleOrganize (App.mk (items fourGems) None None []) = Normal st'
         ∧ knownTypes st'.
Proof.
  destruct (handlers_keep_types_known (App.mk (items fourGems) None None []))
    as (_ & _ & _ & _ & _ & st' & Hrun & Hknown & _).
  - split; [exact fourGems_covered|]. intros d Hd. discriminate Hd.
  - exists st'. split; [exact Hrun|exact Hknown].
Defined.

(** ** What is drawn *)

(** X15. [ItemGridVisual] draws what the logic counts: for a well-formed
    shape with entries 0 and 1, a block is rendered for the cell [(r, c)]
    exactly when the cell is an occupied cell of the logic, at the offsets
    [r * CELL_SIZE + 1] and [c * CELL_SIZE + 1]; a ghost is green when the
    placement is valid and red when it is not. *)
Theorem render_shows_occupied_cells def isGhost isValid r c :
  wellFormed def → binary def →
  occupied def r c
  ↔ (row ← ItemGridVisual.render def isGhost isValid !! r; row !! c)
    = Some (Some (ItemGridVisual.mkBlock
                    (Z.of_nat r * CELL_SIZE + 1) (Z.of_nat c * CELL_SIZE + 1)
                    (if isGhost
                     then (if isValid then "bg-green-400/50" else "bg-red-400/50")
                     else ItemDefinition.color def))).
Proof.
  intros [Hh Hw] Hbin. unfold ItemGridVisual.render, occupied.
  rewrite list_lookup_imap.
  destruct (ItemDefinition.shape def !! r) as [row|] eqn:Hrow; cbn.
  - rewrite list_lookup_imap.
    assert (r < ItemDefinition.height def) as Hr.
    { rewrite <- Hh. by eapply lookup_lt_Some. }
    assert (length row = ItemDefinition.width def) as Hlen
      by (by eapply Forall_lookup_1 in Hw).
    destruct (row !! c) as [cell|] eqn:Hcell; cbn.
    + assert (c < ItemDefinition.width def) as Hc.
      { rewrite <- Hlen. by eapply lookup_lt_Some. }
      assert (cell = 0%Z ∨ cell = 1%Z) as Hcell01.
      { eapply Forall_lookup_1 in Hbin; [|exact Hrow].
        by eapply Forall_lookup_1 in Hbin. }
      destruct (decide (cell = 0%Z)) as [->|Hne].
      * split; [|done]. intros (_ & _ & row' & [= <-] & H). congruence.
      * split; [done|]. intros _. split_and!; [done..|].
        exists row. split; [done|]. destruct Hcell01; [done|by subst].
    + split; [|done]. intros (_ & _ & row' & [= <-] & H). congruence.
  - split; [|done]. by intros (_ & _ & row' & ? & _).
Qed.

Lemma render_shows_occupied_cells_witness :
  occupied boots 1 0
  ↔ (row ← ItemGridVisual.render boots false true !! 1; row !! 0)
    = Some (Some (ItemGridVisual.mkBlock 49 1 "bg-yellow-700")).
Proof.
  apply (render_shows_occupied_cells boots false true 1 0).
  - split; [reflexivity|]. repeat constructor.
  - unfold binary. cbn.
    repeat (apply Forall_cons; split); first [by left | by right | apply Forall_nil_2].
Defined.

(** ** The catalog *)

(** Every catalog item has a bounding box that fits the grid. *)
Lemma catalog_fits key def :
  ITEM_DEFINITIONS !! key = Some def →
  0 < ItemDefinition.width def ≤ GRID_COLS ∧ 0 < ItemDefinition.height def ≤ GRID_ROWS.
Proof.
  revert key def.
  change (map_Forall (λ _ def,
            0 < ItemDefinition.width def ≤ GRID_COLS
            ∧ 0 < ItemDefinition.height def ≤ GRID_ROWS) ITEM_DEFINITIONS).
  unfold ITEM_DEFINITIONS. cbn [list_to_map foldr fst snd].
  repeat apply map_Forall_insert_2; [..|apply map_Forall_empty];
    (unfold GRID_COLS, GRID_ROWS; cbn; lia).
Qed.

(** X16. Every entry of [ITEM_DEFINITIONS] is stored under its own [id], has
    [width] and [height] equal to the dimensions of its shape matrix, has
    only 0 and 1 in the matrix, and has a bounding box of at least one cell
    that fits the 8 x 8 grid. *)
Theorem ITEM_DEFINITIONS_sound key def :
  ITEM_DEFINITIONS !! key = Some def →
  ItemDefinition.id def = key
  ∧ wellFormed def ∧ binary def
  ∧ 0 < ItemDefinition.width def ≤ GRID_COLS
  ∧ 0 < ItemDefinition.height def ≤ GRID_ROWS.
Proof.
  intros Hdef. split; [|split; [by eapply catalog_wellFormed|split; [|by eapply catalog_fits]]].
  - revert key def Hdef.
    change (map_Forall (λ key def, ItemDefinition.id def = key) ITEM_DEFINITIONS).
    unfold ITEM_DEFINITIONS. cbn [list_to_map foldr fst snd].
    repeat apply map_Forall_insert_2; [..|apply map_Forall_empty]; reflexivity.
  - revert key def Hdef.
    change (map_Forall (λ _ def, binary def) ITEM_DEFINITIONS).
    unfold ITEM_DEFINITIONS. cbn [list_to_map foldr fst snd].
    repeat apply map_Forall_insert_2; [..|apply map_Forall_empty];
      (unfold binary; cbn;
       repeat (apply Forall_cons; split); first [by left | by right | apply Forall_nil_2]).
Qed.

Lemma ITEM_DEFINITIONS_sound_witness :
  ItemDefinition.id sword = "sword"
  ∧ wellFormed sword ∧ binary sword
  ∧ 0 < ItemDefinition.width sword ≤ GRID_COLS
  ∧ 0 < ItemDefinition.height sword ≤ GRID_ROWS.
Proof.
  apply (ITEM_DEFINITIONS_sound "sword" sword). reflexivity.
Defined.

(** X17. With every item type known, [handleOrganize] never empties a
    backpack that holds something: the result is not empty, and its first
    item sits at the origin. *)
Theorem handleOrganize_keeps_something st :
  knownTypes st → App.backpackItems st ≠ [] →
  ∃ st' first,
    App.handleOrganize st = Normal st'
    ∧ App.backpackItems st' !! 0 = Some first
    ∧ PlacedItem.x first = 0%Z ∧ PlacedItem.y first = 0%Z.
Proof.
  intros [Hitems _] Hne. unfold App.handleOrganize.
  set (sys := BackpackSystem.mk GRID_ROWS GRID_COLS (App.backpackItems st)).
  destruct (organize_packs sys ITEM_DEFINITIONS ITEM_DEFINITIONS_wellFormed Hitems)
    as (sorted & out & _ & Hperm & _ & _ & Hrun & Hpacks).
  rewrite Hrun. cbn. destruct out as [|first out].
  - destruct (App.backpackItems st) as [|item l] eqn:Hl; [done|].
    assert (is_Some (ITEM_DEFINITIONS !! PlacedItem.defId item)) as [def Hdef]
      by (by apply Forall_cons in Hitems as [? _]).
    destruct (proj1 (packs_nil_iff sys ITEM_DEFINITIONS [] sorted [] Hpacks eq_refl)
                eq_refl item def).
    + rewrite <- Hperm. cbn. left.
    + done.
    + destruct (catalog_fits _ def Hdef) as [Hw Hh]. cbn. lia.
  - eexists _, first. split; [done|]. split; [done|].
    by apply (packs_head sys ITEM_DEFINITIONS [] sorted (first :: out) first Hpacks).
Qed.

Lemma handleOrganize_keeps_something_witness :
  ∃ st' first,
    App.handleOrganize (App.mk [potionAtOrigin] None None []) = Normal st'
    ∧ App.backpackItems st' !! 0 = Some first.
Proof.
  destruct (handleOrganize_keeps_something (App.mk [potionAtOrigin] None None []))
    as (st' & first & Hrun & Hfirst & _).
  - split; [|intros d Hd; discriminate Hd]. repeat constructor. by exists potion.
  - discriminate.
  - exists st', first. split; [exact Hrun|exact Hfirst].
Defined.
